(** * Verification of the hooks of [src/hooks.ts]

    The hooks are embedded as pure functions over an explicit model of the
    host framework (state cells with their update queues, effects with a
    dependency list and a cleanup) and of the browser primitives they wrap
    (timers on a virtual clock, [fetch], [localStorage], [matchMedia]).

    A hook body is split the way the framework runs it: the render phase
    computes the value returned to the caller, the commit phase runs the
    effect when the dependency list changed.  Dependencies are compared with
    [Object.is]; the embedding takes values up to Rocq equality, so a type
    [T] of hook values comes with [EqDecision T]. *)

From Stdlib Require Import ZArith String List Bool Lia.
From Stdlib Require Import DecimalString DecimalZ DecimalPos.
From stdpp Require Import base decidable option list strings gmap.

Local Open Scope Z_scope.

(** ** The host framework *)

Module React.

Section UseState.
Context {S : Type}.

(** The argument of a state setter: a plain value or an updater
    function of the latest state. *)
Inductive SetStateAction : Type :=
| Value (v : S)
| Updater (f : S → S).

Definition basicStateReducer (s : S) (a : SetStateAction) : S :=
  match a with
  | Value v => v
  | Updater f => f s
  end.

(** A state cell: the value of the last render and the updates
    dispatched since, oldest first. *)
Record StateHook : Type := mkStateHook {
  memoizedState : S;
  queue : list SetStateAction
}.

Definition mountState (initialState : S) : StateHook :=
  mkStateHook initialState [].

Definition dispatchSetState (a : SetStateAction) (h : StateHook) : StateHook :=
  mkStateHook (memoizedState h) (queue h ++ [a]).

(** What the next render reads: the queue applied in dispatch order. *)
Definition pendingState (h : StateHook) : S :=
  fold_left basicStateReducer (queue h) (memoizedState h).

Definition updateState (h : StateHook) : StateHook :=
  mkStateHook (pendingState h) [].
End UseState.

Global Arguments SetStateAction : clear implicits.
Global Arguments StateHook : clear implicits.

Section UseEffect.
Context {D : Type} `{EqDecision D}.

(** [prevDeps] is [None] on mount, where the effect always runs. *)
Definition areHookInputsEqual (nextDeps : D) (prevDeps : option D) : bool :=
  match prevDeps with
  | None => false
  | Some prev => bool_decide (prev = nextDeps)
  end.
End UseEffect.

End React.

Import React.

(** ** useToggle *)

Module UseToggle.

Record Hooks : Type := mkHooks { state : StateHook bool }.

(** [initialState: boolean = false] *)
Definition mount (initialState : option bool) : Hooks :=
  mkHooks (mountState (default false initialState)).

(** [const toggle = () => setState((prev) => !prev)] *)
Definition toggle (h : Hooks) : Hooks :=
  mkHooks (dispatchSetState (Updater negb) (state h)).

(** A render of the hook body: the state cell is brought up to date and
    its value is the first component of the returned pair. *)
Definition useToggle (h : Hooks) : bool * Hooks :=
  let st := updateState (state h) in
  (memoizedState st, mkHooks st).

Inductive Event : Type := Toggle | Render.

Definition step (h : Hooks) (e : Event) : Hooks :=
  match e with
  | Toggle => toggle h
  | Render => snd (useToggle h)
  end.

Definition run (es : list Event) (h : Hooks) : Hooks := fold_left step es h.

(** The number of calls of [toggle] in a sequence of events. *)
Fixpoint toggles (es : list Event) : nat :=
  match es with
  | [] => 0%nat
  | Toggle :: es' => S (toggles es')
  | Render :: es' => toggles es'
  end.

End UseToggle.

(** ** usePrevious *)

Module UsePrevious.
Section WithValue.
Context {T : Type} `{EqDecision T}.

(** The hook cells: the ref and the dependency list of the effect. *)
Record Hooks : Type := mkHooks {
  ref_current : T;
  deps : T
}.

(** Render phase.  [fiber] is [None] on the first cycle, where
    [useRef<T>(value)] creates the ref holding [value].  The result is
    the returned [ref.current] (of type [T | undefined]), the ref, and
    whether the effect is scheduled for the commit. *)
Definition usePrevious (value : T) (fiber : option Hooks)
  : option T * T * bool :=
  let ref := match fiber with
             | None => value
             | Some h => ref_current h
             end in
  let scheduled := negb (areHookInputsEqual value (deps <$> fiber)) in
  (Some ref, ref, scheduled).

(** Commit phase: [ref.current = value] when the effect is scheduled. *)
Definition commit (value : T) (ref : T) (scheduled : bool) : Hooks :=
  mkHooks (if scheduled then value else ref) value.

(** One update cycle: render, then commit. *)
Definition cycle (value : T) (fiber : option Hooks) : option T * Hooks :=
  let '(out, ref, scheduled) := usePrevious value fiber in
  (out, commit value ref scheduled).

(** The values returned over a sequence of cycles. *)
Fixpoint observe (values : list T) (fiber : option Hooks) : list (option T) :=
  match values with
  | [] => []
  | v :: vs => let '(out, h) := cycle v fiber in out :: observe vs (Some h)
  end.
End WithValue.

Global Arguments Hooks : clear implicits.
End UsePrevious.

(** ** Exceptions and [try]/[catch]/[finally] *)

Module JS.

Record Error : Type := mkError { name : string; message : string }.

Global Instance Error_eq_dec : EqDecision Error.
Proof. solve_decision. Defined.

(** The completion of a statement: normal, or abrupt with a thrown value. *)
Inductive Completion (A : Type) : Type :=
| Normal (a : A)
| Throw (e : Error).
Global Arguments Normal {A} a.
Global Arguments Throw {A} e.

(** A computation over a mutable world [W].  The world is threaded through
    abrupt completions too: what a [try] block wrote before it threw stays
    written. *)
Definition M (W A : Type) : Type := W → Completion A * W.

Section Monad.
Context {W : Type}.

Definition ret {A} (a : A) : M W A := λ w, (Normal a, w).

Definition bind {A B} (m : M W A) (k : A → M W B) : M W B :=
  λ w, match m w with
       | (Normal a, w') => k a w'
       | (Throw e, w') => (Throw e, w')
       end.

Definition throw {A} (e : Error) : M W A := λ w, (Throw e, w).

Definition modify (f : W → W) : M W unit := λ w, (Normal tt, f w).

(** A value that is there or was thrown: the result of a library call,
    or of awaiting a settled promise. *)
Definition lift {A} (r : Error + A) : M W A :=
  match r with
  | inl e => throw e
  | inr a => ret a
  end.

Definition tryCatch {A} (body : M W A) (handler : Error → M W A) : M W A :=
  λ w, match body w with
       | (Normal a, w') => (Normal a, w')
       | (Throw e, w') => handler e w'
       end.

Definition tryFinally {A} (body : M W A) (finalizer : M W unit) : M W A :=
  λ w, match body w with
       | (c, w') =>
           match finalizer w' with
           | (Normal _, w'') => (c, w'')
           | (Throw e, w'') => (Throw e, w'')
           end
       end.

Definition exec {A} (m : M W A) (w : W) : W := snd (m w).
End Monad.

Declare Scope js_scope.
Delimit Scope js_scope with js.
Notation "x ← y ; z" := (bind y (λ x, z)) (only parsing) : js_scope.
Notation "y ;; z" := (bind y (λ _, z)) (only parsing) : js_scope.

End JS.

(** ** JSON on scalar values

    The texts and values of [JSON.stringify] and [JSON.parse] restricted to
    [undefined], [null], the booleans, [NaN] and the integers, the latter
    written in canonical decimal form. *)

Module JSON.
Import JS.

Inductive JSValue : Type :=
| JSUndefined
| JSNull
| JSBoolean (b : bool)
| JSNumber (n : Z)
| JSNaN.

Global Instance JSValue_eq_dec : EqDecision JSValue.
Proof. solve_decision. Defined.

Definition decimal (n : Z) : string := NilZero.string_of_int (Z.to_int n).

(** [JSON.stringify] returns [undefined] (here [None]) for [undefined],
    and the text [null] for [NaN]. *)
Definition stringify (v : JSValue) : Error + option string :=
  inr (match v with
       | JSUndefined => None
       | JSNull => Some "null"
       | JSBoolean true => Some "true"
       | JSBoolean false => Some "false"
       | JSNumber n => Some (decimal n)
       | JSNaN => Some "null"
       end)%string.

Definition SyntaxError (text : string) : Error :=
  mkError "SyntaxError" ("Unexpected token in JSON: " ++ text).

Definition parse_number (text : string) : option Z :=
  match NilZero.int_of_string text with
  | Some i => let n := Z.of_int i in
              if String.eqb (decimal n) text then Some n else None
  | None => None
  end.

Definition parse (text : string) : Error + JSValue :=
  if String.eqb text "null" then inr JSNull
  else if String.eqb text "true" then inr (JSBoolean true)
  else if String.eqb text "false" then inr (JSBoolean false)
  else match parse_number text with
       | Some n => inr (JSNumber n)
       | None => inl (SyntaxError text)
       end.

(** The parsed text as the value of a slot of type [T | null]: [null] is
    the empty slot. *)
Definition parse_nullable (text : string) : Error + option JSValue :=
  match parse text with
  | inl e => inl e
  | inr JSNull => inr None
  | inr v => inr (Some v)
  end.

End JSON.


(** ** useDebounce

    The event loop is modelled by a virtual clock in milliseconds and the
    list of armed timers.  A timer's callback
    [() => setDebouncedValue(value)] is represented by the value it
    captured. *)

Module UseDebounce.
Section WithValue.
Context {T : Type} `{EqDecision T}.

Record Timer : Type := mkTimer {
  handle : nat;
  deadline : Z;
  captured : T
}.

(** The hook cells: the state, the dependency list [[value, delay]] of the
    effect, and the timer handle its cleanup clears. *)
Record Hooks : Type := mkHooks {
  debouncedValue : StateHook T;
  deps : T * Z;
  handler : nat
}.

(** [published] records each run of a timer callback, with its time. *)
Record World : Type := mkWorld {
  now : Z;
  timers : list Timer;
  nextHandle : nat;
  fiber : option Hooks;
  published : list (Z * T)
}.

Definition init (t0 : Z) : World := mkWorld t0 [] 0%nat None [].

(** The delay a timer honours.  [setTimeout] takes its delay as a signed
    32-bit integer: a delay from 0 to [2^31 - 1] is waited for; a negative
    delay, or one that does not fit, is not, and the timer is due at
    once. *)
Definition timeout (delay : Z) : Z :=
  if (0 <=? delay) && (delay <? 2 ^ 31) then delay else 0.

(** [setTimeout(callback, delay)]; the deadline is the earliest time at
    which the callback can run. *)
Definition setTimeout (value : T) (delay : Z) (w : World) : nat * World :=
  (nextHandle w,
   mkWorld (now w)
           (timers w ++ [mkTimer (nextHandle w) (now w + timeout delay) value])
           (S (nextHandle w)) (fiber w) (published w)).

Definition clearTimeout (id : nat) (w : World) : World :=
  mkWorld (now w) (filter (λ tm, handle tm ≠ id) (timers w))
          (nextHandle w) (fiber w) (published w).

Definition setFiber (h : Hooks) (w : World) : World :=
  mkWorld (now w) (timers w) (nextHandle w) (Some h) (published w).

(** One update cycle of the hook with props [{ value, delay }].  The render
    phase reads the state ([useState(value)] on mount) and returns it; the
    commit phase, when [[value, delay]] changed, runs the cleanup of the
    previous effect and then the effect. *)
Definition useDebounce (value : T) (delay : Z) (w : World) : T * World :=
  let st := match fiber w with
            | None => mountState value
            | Some h => updateState (debouncedValue h)
            end in
  let out := memoizedState st in
  match fiber w with
  | Some h =>
      if areHookInputsEqual (value, delay) (Some (deps h))
      then (out, setFiber (mkHooks st (deps h) (handler h)) w)
      else
        let w1 := clearTimeout (handler h) w in
        let '(id, w2) := setTimeout value delay w1 in
        (out, setFiber (mkHooks st (value, delay) id) w2)
  | None =>
      let '(id, w2) := setTimeout value delay w in
      (out, setFiber (mkHooks st (value, delay) id) w2)
  end.

(** A due timer runs its callback [setDebouncedValue(value)] and is gone. *)
Definition fire (id : nat) (w : World) : option World :=
  match find (λ tm, Nat.eqb (handle tm) id) (timers w) with
  | Some tm =>
      if deadline tm <=? now w then
        let w1 := clearTimeout id w in
        Some (mkWorld (now w1) (timers w1) (nextHandle w1)
                      ((λ h, mkHooks (dispatchSetState (Value (captured tm))
                                                       (debouncedValue h))
                                     (deps h) (handler h)) <$> fiber w1)
                      (published w1 ++ [(now w, captured tm)]))
      else None
  | None => None
  end.

Inductive Action : Type :=
| Render (value : T) (delay : Z)
| Fire (id : nat).

(** An event is an action with the time at which it happens. *)
Definition Event : Type := Z * Action.

Definition advance (t : Z) (w : World) : World :=
  mkWorld t (timers w) (nextHandle w) (fiber w) (published w).

(** Time does not run backwards, and a timer does not fire early: such
    events are not steps. *)
Definition step (w : World) (e : Event) : option World :=
  let '(t, a) := e in
  if t <? now w then None
  else match a with
       | Render value delay => Some (snd (useDebounce value delay (advance t w)))
       | Fire id => fire id (advance t w)
       end.

Fixpoint run (es : list Event) (w : World) : option World :=
  match es with
  | [] => Some w
  | e :: es' => match step w e with
                | Some w' => run es' w'
                | None => None
                end
  end.

(** What the caller observes: the value the next render returns. *)
Definition current (w : World) : option T :=
  (λ h, pendingState (debouncedValue h)) <$> fiber w.




(** At most the timer of the last effect is armed. *)
Definition armed (w : World) : Prop :=
  match fiber w with
  | None => timers w = []
  | Some h => timers w = [] ∨ ∃ dl v, timers w = [mkTimer (handler h) dl v]
  end.


(** The timer armed, if any, is the one of the last effect, and its
    callback captured the value of the last props. *)
Definition armed_latest (w : World) : Prop :=
  match fiber w with
  | None => timers w = []
  | Some h => timers w = []
              ∨ ∃ dl, timers w = [mkTimer (handler h) dl (fst (deps h))]
  end.

(** Unmounting runs the cleanup of the last effect. *)
Definition unmount (w : World) : World :=
  match fiber w with
  | Some h =>
      let w1 := clearTimeout (handler h) w in
      mkWorld (now w1) (timers w1) (nextHandle w1) None (published w1)
  | None => w
  end.

End WithValue.
Global Arguments Timer : clear implicits.
Global Arguments Hooks : clear implicits.
Global Arguments World : clear implicits.
Global Arguments Action : clear implicits.
Global Arguments Event : clear implicits.
End UseDebounce.


(** ** useFetch

    A request issued by the effect stays in flight until the environment
    settles it: [fetch] rejects, or it fulfils with a response whose body
    [response.json()] then parses or fails to parse.  The part of
    [fetchData] after the awaits runs when the request settles. *)

Module UseFetch.
Import JS.

(** [type FetchUrl = string | URL]; a [URL] object is told apart by its
    identity. *)
Inductive FetchUrl : Type :=
| UrlString (href : string)
| UrlObject (identity : nat) (href : string).

Global Instance FetchUrl_eq_dec : EqDecision FetchUrl.
Proof. solve_decision. Defined.

Record Response : Type := mkResponse {
  status : Z;
  body : string
}.

Inductive Settled : Type :=
| Fulfilled (response : Response)
| Rejected (reason : Error).

Section WithData.
Context {T : Type}.
(** [response.json()], as a function of the body text.  [T] stands for the
    parsed values other than [null]; the body [null] parses to [None], the
    empty value of a slot of type [T | null]. *)
Variable json : string → Error + option T.

Record Hooks : Type := mkHooks {
  data : StateHook (option T);
  loading : StateHook bool;
  error : StateHook (option Error);
  deps : FetchUrl
}.

Definition setData (v : option T) : M Hooks unit :=
  modify (λ h, mkHooks (dispatchSetState (Value v) (data h)) (loading h) (error h) (deps h)).

Definition setLoading (b : bool) : M Hooks unit :=
  modify (λ h, mkHooks (data h) (dispatchSetState (Value b) (loading h)) (error h) (deps h)).

Definition setError (e : option Error) : M Hooks unit :=
  modify (λ h, mkHooks (data h) (loading h) (dispatchSetState (Value e) (error h)) (deps h)).

(** The three state cells on mount. *)
Definition mount (url : FetchUrl) : Hooks :=
  mkHooks (mountState None) (mountState true) (mountState None) url.

(** The object [{ data, loading, error }] returned by a render. *)
Record Result : Type := mkResult {
  r_data : option T;
  r_loading : bool;
  r_error : option Error
}.

Definition observe (h : Hooks) : Result :=
  mkResult (pendingState (data h)) (pendingState (loading h)) (pendingState (error h)).

(** [fetchData] up to [await fetch(url)]. *)
Definition fetchData_start : M Hooks unit := setLoading true.

(** [fetchData] from the point where the request settled. *)
Definition fetchData_resume (outcome : Settled) : M Hooks unit :=
  (tryFinally
     (tryCatch
        (response ← lift (match outcome with
                          | Fulfilled r => inr r
                          | Rejected e => inl e
                          end);
         result ← lift (json (body response));
         setData result)
        (λ err, setError (Some err)))
     (setLoading false))%js.

Record World : Type := mkWorld {
  fiber : option Hooks;
  inflight : list (nat * FetchUrl);
  nextRequest : nat
}.

Definition init : World := mkWorld None [] 0%nat.

Definition flush (h : Hooks) : Hooks :=
  mkHooks (updateState (data h)) (updateState (loading h)) (updateState (error h)) (deps h).

(** One update cycle: the render returns the three states; the effect, when
    [url] changed, calls [fetchData], which issues the request. *)
Definition useFetch (url : FetchUrl) (w : World) : Result * World :=
  let h := match fiber w with
           | None => mount url
           | Some h => flush h
           end in
  let out := observe h in
  if areHookInputsEqual url (deps <$> fiber w)
  then (out, mkWorld (Some h) (inflight w) (nextRequest w))
  else
    let h' := exec fetchData_start (mkHooks (data h) (loading h) (error h) url) in
    (out, mkWorld (Some h') (inflight w ++ [(nextRequest w, url)]) (S (nextRequest w))).

Definition pending (id : nat) (w : World) : bool :=
  existsb (λ r, Nat.eqb (fst r) id) (inflight w).

Definition settle (id : nat) (outcome : Settled) (w : World) : option World :=
  if pending id w
  then Some (mkWorld (exec (fetchData_resume outcome) <$> fiber w)
                     (filter (λ r, fst r ≠ id) (inflight w))
                     (nextRequest w))
  else None.

Inductive Event : Type :=
| Render (url : FetchUrl)
| Settle (id : nat) (outcome : Settled).

Definition step (w : World) (e : Event) : option World :=
  match e with
  | Render url => Some (snd (useFetch url w))
  | Settle id outcome => settle id outcome w
  end.

Fixpoint run (es : list Event) (w : World) : option World :=
  match es with
  | [] => Some w
  | e :: es' => match step w e with
                | Some w' => run es' w'
                | None => None
                end
  end.

(** A request fails when [fetch] rejects or the body does not parse; the
    status of the response plays no part. *)
Definition failure (outcome : Settled) : option Error :=
  match outcome with
  | Rejected e => Some e
  | Fulfilled r => match json (body r) with
                   | inl e => Some e
                   | inr _ => None
                   end
  end.

(** The outcomes of a trace, in the order in which the requests settled. *)
Fixpoint outcomes (es : list Event) : list Settled :=
  match es with
  | [] => []
  | Render _ :: es' => outcomes es'
  | Settle _ o :: es' => o :: outcomes es'
  end.

(** The parsed body of the last of these requests that succeeded, [acc]
    when none did. *)
Fixpoint last_parsed (os : list Settled) (acc : option T) : option T :=
  match os with
  | [] => acc
  | Rejected _ :: os' => last_parsed os' acc
  | Fulfilled r :: os' =>
      last_parsed os' (match json (body r) with
                       | inl _ => acc
                       | inr v => v
                       end)
  end.

(** What the caller sees of a world. *)
Definition snapshot (w : World) : option Result := observe <$> fiber w.

(** The number of renders of a trace whose URL differs from the URL of the
    render before, [prev] being the URL the hook last saw. *)
Fixpoint url_changes (es : list Event) (prev : option FetchUrl) : nat :=
  match es with
  | [] => 0%nat
  | Render url :: es' =>
      ((if areHookInputsEqual url prev then 0 else 1) + url_changes es' (Some url))%nat
  | Settle _ _ :: es' => url_changes es' prev
  end.

(** The events of a trace other than the settling of the request [id]. *)
Definition leaves_in_flight (id : nat) (e : Event) : Prop :=
  match e with
  | Render _ => True
  | Settle id' _ => id' ≠ id
  end.

End WithData.
Global Arguments Hooks : clear implicits.
Global Arguments World : clear implicits.
Global Arguments Result : clear implicits.
End UseFetch.


(** ** useLocalStorage

    [window.localStorage] is a map from string keys to string values with a
    bound on its total size; access to it can be denied altogether.  The
    JSON codec of the value type is a parameter. *)

Module UseLocalStorage.
Import JS.

Record Storage : Type := mkStorage {
  items : gmap string string;
  quota : nat;
  blocked : bool
}.

Definition usage (m : gmap string string) : nat :=
  map_fold (λ k v acc, String.length k + String.length v + acc)%nat 0%nat m.

Definition SecurityError : Error :=
  mkError "SecurityError" "The operation is insecure.".

Definition QuotaExceededError : Error :=
  mkError "QuotaExceededError" "The quota has been exceeded.".

Definition getItem (key : string) (st : Storage) : option string :=
  items st !! key.

Definition setItem (key value : string) (st : Storage) : Error + Storage :=
  let items' := <[key := value]> (items st) in
  if (quota st <? usage items')%nat then inl QuotaExceededError
  else inr (mkStorage items' (quota st) (blocked st)).

(** The conversion of the argument of [setItem] to a string. *)
Definition ToString (text : option string) : string :=
  default "undefined"%string text.

(** [item ? ... : ...] on [string | null]: the empty string is falsy too. *)
Definition truthy (item : option string) : option string :=
  match item with
  | Some EmptyString => None
  | other => other
  end.

Section WithValue.
Context {T : Type}.
Variable JSON_stringify : T → Error + option string.
Variable JSON_parse : string → Error + T.

Record Hooks : Type := mkHooks { storedValue : StateHook T }.

Record World : Type := mkWorld {
  fiber : option Hooks;
  storage : Storage;
  console : list Error
}.

(** The getter [window.localStorage]. *)
Definition localStorage : M World Storage :=
  λ w, if blocked (storage w) then (Throw SecurityError, w)
       else (Normal (storage w), w).

Definition console_error (err : Error) : M World unit :=
  modify (λ w, mkWorld (fiber w) (storage w) (console w ++ [err])).

Definition setStoredValue (value : T) : M World unit :=
  modify (λ w, mkWorld ((λ h, mkHooks (dispatchSetState (Value value) (storedValue h)))
                          <$> fiber w)
                       (storage w) (console w)).

(** The initializer passed to [useState], run on mount only. *)
Definition initializer (key : string) (initialValue : T) : M World T :=
  (tryCatch
     (st ← localStorage;
      match truthy (getItem key st) with
      | Some item => lift (JSON_parse item)
      | None => ret initialValue
      end)
     (λ err, console_error err ;; ret initialValue))%js.

(** The render: the stored value; the returned [setValue] is [setValue key]
    below. *)
Definition useLocalStorage (key : string) (initialValue : T) (w : World)
  : Completion T * World :=
  match fiber w with
  | None =>
      match initializer key initialValue w with
      | (Normal v, w') =>
          (Normal v, mkWorld (Some (mkHooks (mountState v))) (storage w') (console w'))
      | (Throw e, w') => (Throw e, w')
      end
  | Some h =>
      let st := updateState (storedValue h) in
      (Normal (memoizedState st), mkWorld (Some (mkHooks st)) (storage w) (console w))
  end.

(** The body of the [try] block of [setValue]. *)
Definition setValue_try (key : string) (value : T) : M World unit :=
  (setStoredValue value ;;
   st ← localStorage;
   text ← lift (JSON_stringify value);
   st' ← lift (setItem key (ToString text) st);
   modify (λ w, mkWorld (fiber w) st' (console w)))%js.

Definition setValue (key : string) (value : T) : M World unit :=
  tryCatch (setValue_try key value) (λ err, console_error err).

(** A binding constructed afresh over the same store. *)
Definition fresh (w : World) : World := mkWorld None (storage w) (console w).

(** The initial value of a binding and what its construction logs, by
    cases on the store: access denied; no item or an empty one; an item
    that parses; an item that does not. *)
Definition initial_read (key : string) (initialValue : T) (st : Storage)
  : T * list Error :=
  if blocked st then (initialValue, [SecurityError])
  else match truthy (getItem key st) with
       | None => (initialValue, [])
       | Some item => match JSON_parse item with
                      | inr x => (x, [])
                      | inl e => (initialValue, [e])
                      end
       end.

(** The values whose serialized form reads back as the value itself. *)
Definition representable (x : T) : Prop :=
  ∃ text, JSON_stringify x = inr (Some text) ∧ text ≠ ""%string
          ∧ JSON_parse text = inr x.

End WithValue.
Global Arguments Hooks : clear implicits.
Global Arguments World : clear implicits.
End UseLocalStorage.

(** ** useMediaQuery

    The environment evaluates every query ([media]); a [MediaQueryList]
    reads it live, and its [change] listeners are called when the result
    for its query changes. *)

Module UseMediaQuery.

Definition QueryString : Type := string.

Record Hooks : Type := mkHooks {
  matches : StateHook bool;
  deps : QueryString
}.

Record World : Type := mkWorld {
  media : QueryString → bool;
  listeners : list QueryString;
  fiber : option Hooks
}.

Definition init (m : QueryString → bool) : World := mkWorld m [] None.

Definition setMatches (b : bool) (h : Hooks) : Hooks :=
  mkHooks (dispatchSetState (Value b) (matches h)) (deps h).

(** [updateMatch] of the effect run for [query]. *)
Definition updateMatch (m : QueryString → bool) (query : QueryString) (h : Hooks) : Hooks :=
  setMatches (m query) h.

Fixpoint removeEventListener (query : QueryString) (ls : list QueryString)
  : list QueryString :=
  match ls with
  | [] => []
  | q :: ls' => if String.eqb q query then ls' else q :: removeEventListener query ls'
  end.

(** One update cycle: the render returns [matches] ([useState(false)] on
    mount); the effect, when [query] changed, calls [updateMatch] and
    subscribes, after the cleanup of the previous effect unsubscribed. *)
Definition useMediaQuery (query : QueryString) (w : World) : bool * World :=
  let st := match fiber w with
            | None => mountState false
            | Some h => updateState (matches h)
            end in
  let out := memoizedState st in
  if areHookInputsEqual query (deps <$> fiber w)
  then (out, mkWorld (media w) (listeners w) (Some (mkHooks st query)))
  else
    let ls := match fiber w with
              | None => listeners w
              | Some h => removeEventListener (deps h) (listeners w)
              end in
    (out, mkWorld (media w) (ls ++ [query])
                  (Some (updateMatch (media w) query (mkHooks st query)))).

(** The environment changes: the listeners of the queries whose result
    changed are called. *)
Definition change (m' : QueryString → bool) (w : World) : World :=
  let notified := filter (λ q, media w q ≠ m' q) (listeners w) in
  mkWorld m' (listeners w)
          ((λ h, fold_left (λ h q, updateMatch m' q h) notified h) <$> fiber w).

(** Unmounting runs the cleanup of the last effect. *)
Definition unmount (w : World) : World :=
  match fiber w with
  | Some h => mkWorld (media w) (removeEventListener (deps h) (listeners w)) None
  | None => w
  end.

Inductive Event : Type :=
| Render (query : QueryString)
| Change (m : QueryString → bool).

Definition step (w : World) (e : Event) : World :=
  match e with
  | Render query => snd (useMediaQuery query w)
  | Change m => change m w
  end.

Definition run (es : list Event) (w : World) : World := fold_left step es w.

(** The hook is subscribed to its query, once, and its state is the
    result of that query. *)
Definition in_sync (w : World) : Prop :=
  match fiber w with
  | Some h => listeners w = [deps h] ∧ pendingState (matches h) = media w (deps h)
  | None => listeners w = []
  end.

End UseMediaQuery.

(** ** useClickOutside

    A DOM node is named by its path from the document root, the indices of
    the children taken on the way down.  A handler is named by its
    identity; its calls are recorded in [calls]. *)

Module UseClickOutside.

Definition Node : Type := list nat.

(** [node.contains(other)]: [other] is [node] or one of its descendants. *)
Fixpoint contains (node other : Node) : bool :=
  match node, other with
  | [], _ => true
  | i :: node', j :: other' => Nat.eqb i j && contains node' other'
  | _ :: _, [] => false
  end.

(** [type Void = () => void], up to the identity of the function. *)
Definition Void : Type := nat.

(** The hook cells: the ref, empty until the host attaches the element, and
    the dependency list [[handler]] of the effect. *)
Record Hooks : Type := mkHooks {
  ref_current : option Node;
  deps : Void
}.

(** [listeners] are the [click] listeners this hook has on [document]: the
    closures [handleClickOutside], each named by the handler it captured. *)
Record World : Type := mkWorld {
  fiber : option Hooks;
  listeners : list Void;
  calls : list Void
}.

Definition init : World := mkWorld None [] [].

(** [handleClickOutside] of the effect run for [handler]; it reads the ref
    when the click happens. *)
Definition handleClickOutside (handler : Void) (target : Node) (w : World) : World :=
  match fiber w ≫= ref_current with
  | Some node =>
      if negb (contains node target)
      then mkWorld (fiber w) (listeners w) (calls w ++ [handler])
      else w
  | None => w
  end.

Fixpoint removeEventListener (handler : Void) (ls : list Void) : list Void :=
  match ls with
  | [] => []
  | l :: ls' => if Nat.eqb l handler then ls' else l :: removeEventListener handler ls'
  end.

(** One update cycle: [useRef(null)] on mount; the effect, when [handler]
    changed, subscribes [handleClickOutside], after the cleanup of the
    previous effect unsubscribed.  The returned ref is the cell
    [ref_current], which the host sets with [attach]. *)
Definition useClickOutside (handler : Void) (w : World) : World :=
  match fiber w with
  | None => mkWorld (Some (mkHooks None handler)) (listeners w ++ [handler]) (calls w)
  | Some h =>
      if areHookInputsEqual handler (Some (deps h)) then w
      else mkWorld (Some (mkHooks (ref_current h) handler))
                   (removeEventListener (deps h) (listeners w) ++ [handler])
                   (calls w)
  end.

(** The host attaches the rendered element to the ref, or detaches it. *)
Definition attach (node : option Node) (w : World) : World :=
  mkWorld ((λ h, mkHooks node (deps h)) <$> fiber w) (listeners w) (calls w).

(** A click on [target] reaches every listener on [document]. *)
Definition click (target : Node) (w : World) : World :=
  fold_left (λ w handler, handleClickOutside handler target w) (listeners w) w.

(** Unmounting runs the cleanup of the last effect. *)
Definition unmount (w : World) : World :=
  match fiber w with
  | Some h => mkWorld None (removeEventListener (deps h) (listeners w)) (calls w)
  | None => w
  end.

Inductive Event : Type :=
| Render (handler : Void)
| Attach (node : option Node)
| Click (target : Node)
| Unmount.

Definition step (w : World) (e : Event) : World :=
  match e with
  | Render handler => useClickOutside handler w
  | Attach node => attach node w
  | Click target => click target w
  | Unmount => unmount w
  end.

Definition run (es : list Event) (w : World) : World := fold_left step es w.

(** While mounted the hook has one listener, the one of its current
    handler; none otherwise. *)
Definition subscribed (w : World) : Prop :=
  match fiber w with
  | Some h => listeners w = [deps h]
  | None => listeners w = []
  end.

End UseClickOutside.


(** ** Scenarios

    Concrete inputs on which the hooks are run below. *)

Module Scenario.

Definition TypeError : JS.Error := JS.mkError "TypeError" "Failed to fetch".

Definition users : UseFetch.FetchUrl := UseFetch.UrlString "/api/users".
Definition teams : UseFetch.FetchUrl := UseFetch.UrlString "/api/teams".

Definition ok (text : string) : UseFetch.Settled :=
  UseFetch.Fulfilled (UseFetch.mkResponse 200 text).

Definition not_found (text : string) : UseFetch.Settled :=
  UseFetch.Fulfilled (UseFetch.mkResponse 404 text).

(** The hook after its first cycle for [users]: the request is in flight. *)
Definition requested_hooks : UseFetch.Hooks JSON.JSValue :=
  UseFetch.mkHooks (mountState None)
                   (dispatchSetState (Value true) (mountState true))
                   (mountState None) users.

Definition requested : UseFetch.World JSON.JSValue :=
  UseFetch.mkWorld (Some requested_hooks) [(0%nat, users)] 1.

(** A request that succeeds, then a URL change and a request that fails. *)
Definition success_then_failure : list UseFetch.Event :=
  [UseFetch.Render users; UseFetch.Settle 0 (ok "true");
   UseFetch.Render teams; UseFetch.Settle 1 (UseFetch.Rejected TypeError)].

(** A request that fails, then a URL change. *)
Definition failure_then_change : list UseFetch.Event :=
  [UseFetch.Render users; UseFetch.Settle 0 (UseFetch.Rejected TypeError);
   UseFetch.Render teams].

(** A single request, answered by the body [null]. *)
Definition null_body : list UseFetch.Event :=
  [UseFetch.Render users; UseFetch.Settle 0 (ok "null")].

Definition fetched (es : list UseFetch.Event) : UseFetch.World JSON.JSValue :=
  default UseFetch.init (UseFetch.run JSON.parse_nullable es UseFetch.init).

(** A mounted binding over an empty store. *)
Definition binding : UseLocalStorage.World JSON.JSValue :=
  UseLocalStorage.mkWorld
    (Some (UseLocalStorage.mkHooks (mountState (JSON.JSBoolean false))))
    (UseLocalStorage.mkStorage ∅ 5000 false) [].

Definition stored (x : JSON.JSValue) : UseLocalStorage.World JSON.JSValue :=
  snd (UseLocalStorage.setValue_try JSON.stringify "theme" x binding).

(** Typing into a search box debounced by 300 ms: the hook is mounted at
    time 0 with the empty string; three keystrokes follow, and the timer of
    the last one fires when it is due. *)
Definition mounted : UseDebounce.World string :=
  snd (UseDebounce.useDebounce ""%string 300 (UseDebounce.init 0)).

Definition keystrokes : list (UseDebounce.Event string) :=
  [(1100, UseDebounce.Render "re"%string 300);
   (1250, UseDebounce.Render "rea"%string 300);
   (1550, UseDebounce.Fire 3)].

Definition typed : UseDebounce.World string :=
  default mounted
    (UseDebounce.run ((1000, UseDebounce.Render "r"%string 300) :: keystrokes) mounted).





(** The search box after the three keystrokes, the timer of the last one
    armed. *)
Definition keyed : list (UseDebounce.Event string) :=
  [(0, UseDebounce.Render ""%string 300);
   (1000, UseDebounce.Render "r"%string 300);
   (1100, UseDebounce.Render "re"%string 300);
   (1250, UseDebounce.Render "rea"%string 300)].

Definition awaiting : UseDebounce.World string :=
  default (UseDebounce.init 0) (UseDebounce.run keyed (UseDebounce.init 0)).



(** The URL changes while the first request is in flight: two requests are
    in flight. *)
Definition superseded : UseFetch.World JSON.JSValue :=
  default requested (UseFetch.run JSON.parse_nullable [UseFetch.Render teams] requested).

Definition superseded_hooks : UseFetch.Hooks JSON.JSValue :=
  default requested_hooks (UseFetch.fiber superseded).

(** A dropdown with handler 7, attached to the second child of the first
    child of the root. *)
Definition dropdown : list UseClickOutside.Event :=
  [UseClickOutside.Render 7%nat; UseClickOutside.Attach (Some [0; 1]%nat)].

End Scenario.


(** * Properties *)

(** ** State cells *)

Section StateCells.
Context {S : Type}.
Implicit Types (h : StateHook S) (a : SetStateAction S).

Lemma pendingState_mount (s : S) : pendingState (mountState s) = s.
Proof. reflexivity. Qed.

Lemma pendingState_dispatch a h :
  pendingState (dispatchSetState a h) = basicStateReducer (pendingState h) a.
Proof. unfold pendingState, dispatchSetState; simpl. apply fold_left_app. Qed.

Lemma pendingState_update h : pendingState (updateState h) = pendingState h.
Proof. reflexivity. Qed.

Lemma memoizedState_update h : memoizedState (updateState h) = pendingState h.
Proof. reflexivity. Qed.

End StateCells.

Create Rewrite HintDb cells.
#[export] Hint Rewrite @pendingState_mount @pendingState_dispatch
  @pendingState_update @memoizedState_update : cells.

(** ** useToggle *)

Lemma iter_negb_S (n : nat) (b : bool) :
  Nat.iter (S n) negb b = Nat.iter n negb (negb b).
Proof. induction n as [|n IH]; simpl in *; congruence. Qed.

Lemma useToggle_pending (es : list UseToggle.Event) (h : UseToggle.Hooks) :
  pendingState (UseToggle.state (UseToggle.run es h))
  = Nat.iter (UseToggle.toggles es) negb (pendingState (UseToggle.state h)).
Proof.
  revert h; induction es as [|[|] es IH]; intros h.
  - reflexivity.
  - change (UseToggle.run (UseToggle.Toggle :: es) h)
      with (UseToggle.run es (UseToggle.toggle h)).
    rewrite IH. cbn [UseToggle.toggles]. rewrite iter_negb_S.
    unfold UseToggle.toggle; cbn [UseToggle.state].
    now rewrite pendingState_dispatch.
  - change (UseToggle.run (UseToggle.Render :: es) h)
      with (UseToggle.run es (snd (UseToggle.useToggle h))).
    now rewrite IH.
Qed.

(** C8: whatever the initial state and however the calls of [toggle] are
    interleaved with renders, the state returned by the next render is the
    initial state negated once per call; from [false], one call gives
    [true] and two calls give [false]. *)
Theorem useToggle_negates_per_call :
  (∀ (initialState : option bool) (es : list UseToggle.Event),
      fst (UseToggle.useToggle (UseToggle.run es (UseToggle.mount initialState)))
      = Nat.iter (UseToggle.toggles es) negb (default false initialState))
  ∧ (∀ n : nat,
        fst (UseToggle.useToggle
               (Nat.iter n UseToggle.toggle (UseToggle.mount (Some false))))
        = Nat.odd n)
  ∧ fst (UseToggle.useToggle (UseToggle.toggle (UseToggle.mount (Some false))))
    = true
  ∧ fst (UseToggle.useToggle
           (UseToggle.toggle (UseToggle.toggle (UseToggle.mount (Some false)))))
    = false.
Proof.
  split; [|split; [|split; reflexivity]].
  - intros initialState es. unfold UseToggle.useToggle; cbn [fst].
    rewrite memoizedState_update, useToggle_pending. reflexivity.
  - intros n. unfold UseToggle.useToggle; cbn [fst].
    rewrite memoizedState_update.
    induction n as [|n IH]; [reflexivity|].
    rewrite Nat.iter_succ. unfold UseToggle.toggle at 1; cbn [UseToggle.state].
    rewrite pendingState_dispatch, IH. cbn [basicStateReducer].
    rewrite Nat.odd_succ, <- Nat.negb_odd. reflexivity.
Qed.

(** ** usePrevious *)

Section UsePreviousFacts.
Context {T : Type} `{EqDecision T}.

(** After the commit of a cycle the ref holds the value of that cycle. *)
Lemma usePrevious_ref_after_cycle (value : T) (fiber : option (UsePrevious.Hooks T)) :
  (∀ h, fiber = Some h → UsePrevious.ref_current h = UsePrevious.deps h) →
  UsePrevious.ref_current (snd (UsePrevious.cycle value fiber)) = value
  ∧ UsePrevious.deps (snd (UsePrevious.cycle value fiber)) = value.
Proof.
  intros Hinv. unfold UsePrevious.cycle, UsePrevious.usePrevious, UsePrevious.commit.
  cbn. split; [|reflexivity].
  destruct fiber as [h|]; cbn; [|reflexivity].
  case_bool_decide as Heq; cbn; [|reflexivity].
  rewrite (Hinv h eq_refl). exact Heq.
Qed.

(** From the second cycle on, each cycle returns the value of the cycle
    before it. *)
Lemma usePrevious_observe_mounted (values : list T) (h : UsePrevious.Hooks T) :
  UsePrevious.ref_current h = UsePrevious.deps h →
  UsePrevious.observe values (Some h)
  = Some <$> removelast (UsePrevious.ref_current h :: values).
Proof.
  revert h; induction values as [|v vs IH]; intros h Hinv; [reflexivity|].
  change (UsePrevious.observe (v :: vs) (Some h))
    with (Some (UsePrevious.ref_current h)
          :: UsePrevious.observe vs (Some (snd (UsePrevious.cycle v (Some h))))).
  destruct (usePrevious_ref_after_cycle v (Some h)) as [Href Hdeps].
  { now intros ? [= <-]. }
  rewrite IH by congruence. rewrite Href. reflexivity.
Qed.

Lemma usePrevious_observe (v : T) (values : list T) :
  UsePrevious.observe (v :: values) None = Some v :: (Some <$> removelast (v :: values)).
Proof.
  change (UsePrevious.observe (v :: values) None)
    with (Some v :: UsePrevious.observe values
                      (Some (snd (UsePrevious.cycle v None)))).
  now rewrite usePrevious_observe_mounted.
Qed.

(** C1, as the code behaves: the first cycle returns the value it was given
    (the ref is created holding it), not [undefined]; after the updates
    [a], [b], [c] the cycle of [c] returns [b]. *)
Theorem usePrevious_first_cycle_returns_value (a b c : T) :
  fst (UsePrevious.cycle a None) = Some a
  ∧ fst (UsePrevious.cycle a None) ≠ None
  ∧ UsePrevious.observe [a; b; c] None = [Some a; Some a; Some b].
Proof.
  split; [reflexivity|]. split; [discriminate|].
  now rewrite usePrevious_observe.
Qed.

End UsePreviousFacts.

(** ** useMediaQuery *)

(** C4 fails: in an environment where every query matches, the first value
    returned for [(max-width: 768px)] is not the result of the query. *)
Lemma useMediaQuery_first_value_not_the_match :
  fst (UseMediaQuery.useMediaQuery "(max-width: 768px)"
         (UseMediaQuery.init (λ _, true)))
  ≠ (λ _ : UseMediaQuery.QueryString, true) "(max-width: 768px)"%string.
Proof. cbn. discriminate. Qed.

(** C4, amended: the first value returned is [false] for every query and
    environment; the effect of the first cycle reads the environment, and
    the value returned by the second render is the result of the query. *)
Theorem useMediaQuery_matches_after_mount
  (m : UseMediaQuery.QueryString → bool) (query : UseMediaQuery.QueryString) :
  let first := UseMediaQuery.useMediaQuery query (UseMediaQuery.init m) in
  fst first = false
  ∧ fst (UseMediaQuery.useMediaQuery query (snd first)) = m query.
Proof.
  cbn. split; [reflexivity|].
  unfold UseMediaQuery.useMediaQuery; cbn.
  rewrite bool_decide_eq_true_2 by reflexivity. reflexivity.
Qed.

(** While the hook is mounted for a query, the value it returns follows
    the environment. *)
Lemma useMediaQuery_follows_change
  (m m' : UseMediaQuery.QueryString → bool) (query : UseMediaQuery.QueryString) :
  let mounted := snd (UseMediaQuery.useMediaQuery query (UseMediaQuery.init m)) in
  fst (UseMediaQuery.useMediaQuery query (UseMediaQuery.change m' mounted)) = m' query.
Proof.
  cbn. unfold UseMediaQuery.useMediaQuery, UseMediaQuery.change; cbn.
  destruct (decide (m query ≠ m' query)) as [Hne|Heq]; cbn;
    rewrite bool_decide_eq_true_2 by reflexivity; cbn.
  - reflexivity.
  - destruct (m query), (m' query); try reflexivity;
      exfalso; apply Heq; discriminate.
Qed.

(** ** useFetch *)

Section UseFetchFacts.
Import JS UseFetch.
Context {T : Type}.
Variable json : string → Error + option T.

Lemma fetchData_resume_failure (o : Settled) (e : Error) (h : Hooks T) :
  failure json o = Some e →
  fetchData_resume json o h
  = (Normal tt,
     mkHooks (data h)
             (dispatchSetState (Value false) (loading h))
             (dispatchSetState (Value (Some e)) (error h))
             (deps h)).
Proof.
  unfold failure, fetchData_resume, tryFinally, tryCatch, bind, lift.
  destruct o as [r|e']; cbn.
  - destruct (json (body r)) as [e'|v]; cbn; intros [= <-]; reflexivity.
  - intros [= <-]; reflexivity.
Qed.

Lemma fetchData_resume_success (o : Settled) (h : Hooks T) :
  failure json o = None →
  ∃ r v, o = Fulfilled r ∧ json (body r) = inr v ∧
  fetchData_resume json o h
  = (Normal tt,
     mkHooks (dispatchSetState (Value v) (data h))
             (dispatchSetState (Value false) (loading h))
             (error h)
             (deps h)).
Proof.
  unfold failure, fetchData_resume, tryFinally, tryCatch, bind, lift.
  destruct o as [r|e']; cbn; [|discriminate].
  destruct (json (body r)) as [e'|v] eqn:Hjson; cbn; [discriminate|].
  intros _. exists r, v. rewrite Hjson. cbn. auto.
Qed.

(** What a render shows once a request in flight has settled. *)
Lemma snapshot_settle_failure (w : World T) (h : Hooks T) (id : nat)
      (o : Settled) (e : Error) :
  fiber w = Some h →
  pending id w = true →
  failure json o = Some e →
  ∃ w', settle json id o w = Some w'
        ∧ snapshot w' = Some (mkResult (r_data (observe h)) false (Some e)).
Proof.
  intros Hf Hp Hfail. unfold settle. rewrite Hp. eexists; split; [reflexivity|].
  unfold snapshot, exec; cbn [fiber]. rewrite Hf; cbn [fmap option_fmap option_map].
  rewrite (fetchData_resume_failure o e h Hfail); cbn [snd].
  unfold observe; cbn [data loading error].
  now autorewrite with cells.
Qed.

Lemma snapshot_settle_success (w : World T) (h : Hooks T) (id : nat)
      (r : Response) (v : option T) :
  fiber w = Some h →
  pending id w = true →
  json (body r) = inr v →
  ∃ w', settle json id (Fulfilled r) w = Some w'
        ∧ snapshot w' = Some (mkResult v false (r_error (observe h))).
Proof.
  intros Hf Hp Hjson. unfold settle. rewrite Hp. eexists; split; [reflexivity|].
  destruct (fetchData_resume_success (Fulfilled r) h) as (r' & v' & [= <-] & Hv & Hres).
  { unfold failure. now rewrite Hjson. }
  rewrite Hjson in Hv. injection Hv as <-.
  unfold snapshot, exec; cbn [fiber]. rewrite Hf; cbn [fmap option_fmap option_map].
  rewrite Hres; cbn [snd]. unfold observe; cbn [data loading error].
  now autorewrite with cells.
Qed.

(** The cycle in which the URL changes: [loading] is set, the request is
    issued, the rest stays. *)
Lemma useFetch_url_change (w : World T) (h : Hooks T) (url : FetchUrl) :
  fiber w = Some h →
  deps h ≠ url →
  ∃ h1, snd (useFetch url w)
        = mkWorld (Some h1) (inflight w ++ [(nextRequest w, url)]) (S (nextRequest w))
        ∧ observe h1 = mkResult (r_data (observe h)) true (r_error (observe h)).
Proof.
  intros Hf Hne. unfold useFetch. rewrite Hf. cbn [fmap option_fmap option_map].
  unfold areHookInputsEqual. rewrite bool_decide_eq_false_2 by exact Hne.
  cbn [snd]. eexists; split; [reflexivity|].
  unfold observe, exec, fetchData_start, setLoading, modify;
    cbn [snd data loading error].
  now rewrite pendingState_dispatch.
Qed.

Lemma pending_issued (f : option (Hooks T)) (rs : list (nat * FetchUrl))
      (id next : nat) (url : FetchUrl) :
  pending id (mkWorld f (rs ++ [(id, url)]) next) = true.
Proof.
  unfold pending; cbn. rewrite existsb_app; cbn.
  rewrite Nat.eqb_refl. apply orb_true_iff; right; reflexivity.
Qed.

(** C6: when a request in flight fails, by a rejection of [fetch] or by a
    body that does not parse, the rest of [fetchData] completes normally
    (nothing is thrown) and the hook then shows the failure in [error],
    [loading] false, and [data] as it was; when the request was issued by
    a URL change, [data] is as it was before that change. *)
Theorem useFetch_failure_sets_error
  (w : World T) (h : Hooks T) (id : nat) (o : Settled) (e : Error) :
  fiber w = Some h →
  pending id w = true →
  failure json o = Some e →
  fst (fetchData_resume json o h) = Normal tt
  ∧ (∃ w', settle json id o w = Some w'
           ∧ snapshot w' = Some (mkResult (r_data (observe h)) false (Some e)))
  ∧ (∀ url, deps h ≠ url →
            ∃ w', settle json (nextRequest w) o (snd (useFetch url w)) = Some w'
                  ∧ snapshot w' = Some (mkResult (r_data (observe h)) false (Some e))).
Proof.
  intros Hf Hp Hfail. split; [|split].
  - now rewrite (fetchData_resume_failure o e h Hfail).
  - now apply snapshot_settle_failure.
  - intros url Hne.
    destruct (useFetch_url_change w h url Hf Hne) as (h1 & -> & Hobs).
    destruct (snapshot_settle_failure
                (mkWorld (Some h1) (inflight w ++ [(nextRequest w, url)])
                         (S (nextRequest w)))
                h1 (nextRequest w) o e eq_refl (pending_issued _ _ _ _ _) Hfail)
      as (w' & Hsettle & Hsnap).
    exists w'. split; [exact Hsettle|]. rewrite Hsnap, Hobs. reflexivity.
Qed.

(** C9: a response whose body parses is a success whatever its status:
    [data] becomes the parsed body, [loading] false, and [error] stays as
    it was (empty if it was empty).  The status is never read: responses
    that differ in status only leave the hook in the same state, and
    [error] changes only when [fetch] rejects or the body fails to parse. *)
Theorem useFetch_ignores_status
  (w : World T) (h : Hooks T) (id : nat) (code : Z) (text : string) (v : option T) :
  fiber w = Some h →
  pending id w = true →
  json text = inr v →
  (∃ w', settle json id (Fulfilled (mkResponse code text)) w = Some w'
         ∧ snapshot w' = Some (mkResult v false (r_error (observe h))))
  ∧ (∀ code', fetchData_resume json (Fulfilled (mkResponse code' text)) h
              = fetchData_resume json (Fulfilled (mkResponse code text)) h)
  ∧ (∀ o, r_error (observe (exec (fetchData_resume json o) h)) ≠ r_error (observe h) →
          (∃ e, o = Rejected e)
          ∨ (∃ r e, o = Fulfilled r ∧ json (body r) = inl e)).
Proof.
  intros Hf Hp Hjson. split; [|split].
  - now apply snapshot_settle_success.
  - intros code'. reflexivity.
  - intros o Hne. destruct o as [r|e]; [|left; eauto].
    right. destruct (json (body r)) as [e|v'] eqn:Hr; [eauto|].
    exfalso; apply Hne.
    destruct (fetchData_resume_success (Fulfilled r) h)
      as (r' & v'' & _ & _ & Hres).
    { unfold failure. now rewrite Hr. }
    unfold exec. rewrite Hres. reflexivity.
Qed.

(** C3, amended: on a URL change the effect sets [loading] to true and
    issues the request; [data] and the prior [error] stay as they were.
    When the new request then succeeds, [error] is still the prior one. *)
Theorem useFetch_url_change_keeps_error
  (w : World T) (h : Hooks T) (url : FetchUrl) :
  fiber w = Some h →
  deps h ≠ url →
  let w1 := snd (useFetch url w) in
  snapshot w1
  = Some (mkResult (r_data (observe h)) true (r_error (observe h)))
  ∧ inflight w1 = inflight w ++ [(nextRequest w, url)]
  ∧ ∀ response v,
      json (body response) = inr v →
      ∃ w2, settle json (nextRequest w) (Fulfilled response) w1 = Some w2
            ∧ snapshot w2 = Some (mkResult v false (r_error (observe h))).
Proof.
  intros Hf Hne w1. subst w1.
  destruct (useFetch_url_change w h url Hf Hne) as (h1 & -> & Hobs).
  split; [|split].
  - unfold snapshot; cbn. now rewrite Hobs.
  - reflexivity.
  - intros response v Hjson.
    destruct (snapshot_settle_success
                (mkWorld (Some h1) (inflight w ++ [(nextRequest w, url)])
                         (S (nextRequest w)))
                h1 (nextRequest w) response v eq_refl (pending_issued _ _ _ _ _) Hjson)
      as (w2 & Hsettle & Hsnap).
    exists w2. split; [exact Hsettle|]. rewrite Hsnap, Hobs. reflexivity.
Qed.

(** A request is in flight only once the hook is mounted. *)
Lemma useFetch_step_mounted (w w' : World T) (e : Event) :
  (fiber w = None → inflight w = []) →
  step json w e = Some w' →
  (fiber w' = None → inflight w' = []).
Proof.
  intros Hwf Hstep Hnone. destruct e as [url|id o]; cbn in Hstep.
  - injection Hstep as <-. unfold useFetch in Hnone.
    destruct (areHookInputsEqual _ _); cbn in Hnone; discriminate.
  - unfold settle in Hstep. destruct (pending id w); [|discriminate].
    injection Hstep as <-. cbn in *.
    destruct (fiber w); [discriminate|]. now rewrite Hwf.
Qed.

Lemma useFetch_render_fields (w : World T) (url : FetchUrl) :
  let w' := snd (useFetch url w) in
  snapshot w' ≫= r_data = snapshot w ≫= r_data
  ∧ snapshot w' ≫= r_error = snapshot w ≫= r_error
  ∧ (r_loading <$> snapshot w' = Some false → r_loading <$> snapshot w = Some false).
Proof.
  unfold useFetch, snapshot. destruct (fiber w) as [h|]; cbn.
  - unfold areHookInputsEqual. case_bool_decide; cbn; auto.
    split; [reflexivity|]. split; [reflexivity|].
    unfold exec, fetchData_start, setLoading, modify; cbn. discriminate.
  - repeat split; discriminate.
Qed.

Lemma useFetch_settle_fields (w w' : World T) (id : nat) (o : Settled) :
  (fiber w = None → inflight w = []) →
  settle json id o w = Some w' →
  snapshot w' ≫= r_data = last_parsed json [o] (snapshot w ≫= r_data)
  ∧ (is_Some (snapshot w' ≫= r_error)
     ↔ is_Some (snapshot w ≫= r_error) ∨ is_Some (failure json o)).
Proof.
  intros Hwf Hsettle.
  destruct (fiber w) as [h|] eqn:Hf.
  2:{ unfold settle, pending in Hsettle. rewrite Hwf in Hsettle by reflexivity.
      discriminate. }
  assert (Hp : pending id w = true).
  { unfold settle in Hsettle. destruct (pending id w); [reflexivity|discriminate]. }
  assert (Hsnap : snapshot w = Some (observe h)) by (unfold snapshot; now rewrite Hf).
  rewrite Hsnap. cbn [mbind option_bind].
  destruct (failure json o) as [e|] eqn:Hfail.
  - destruct (snapshot_settle_failure w h id o e Hf Hp Hfail) as (w1 & Hs1 & Hsnap1).
    rewrite Hs1 in Hsettle. injection Hsettle as <-. rewrite Hsnap1.
    cbn [mbind option_bind r_data r_error]. split; [|split; eauto].
    unfold failure in Hfail. destruct o as [r|e']; cbn [last_parsed]; [|reflexivity].
    destruct (json (body r)); [reflexivity|discriminate].
  - destruct (fetchData_resume_success o h Hfail) as (r & v & -> & Hjson & _).
    destruct (snapshot_settle_success w h id r v Hf Hp Hjson) as (w1 & Hs1 & Hsnap1).
    rewrite Hs1 in Hsettle. injection Hsettle as <-. rewrite Hsnap1.
    cbn [mbind option_bind r_data r_error last_parsed]. rewrite Hjson.
    split; [reflexivity|]. split; [auto|]. intros [?|[? [=]]]; assumption.
Qed.

Lemma useFetch_run_fields (es : list Event) (w w' : World T) :
  (fiber w = None → inflight w = []) →
  run json es w = Some w' →
  snapshot w' ≫= r_data = last_parsed json (outcomes es) (snapshot w ≫= r_data)
  ∧ (is_Some (snapshot w' ≫= r_error)
     ↔ is_Some (snapshot w ≫= r_error)
       ∨ Exists (λ o, is_Some (failure json o)) (outcomes es))
  ∧ (r_loading <$> snapshot w' = Some false →
     r_loading <$> snapshot w = Some false ∨ outcomes es ≠ []).
Proof.
  revert w; induction es as [|e es IH]; intros w Hwf Hrun.
  - injection Hrun as <-. cbn [outcomes last_parsed]. rewrite Exists_nil. tauto.
  - cbn [run] in Hrun. destruct (step json w e) as [w1|] eqn:Hstep; [|discriminate].
    destruct (IH w1 (useFetch_step_mounted w w1 e Hwf Hstep) Hrun) as (HD & HE & HL).
    destruct e as [url|id o]; cbn [step] in Hstep; cbn [outcomes].
    + injection Hstep as <-.
      destruct (useFetch_render_fields w url) as (Hd & He & Hl).
      rewrite Hd in HD. rewrite He in HE. tauto.
    + destruct (useFetch_settle_fields w w1 id o Hwf Hstep) as (Hd & He).
      rewrite Exists_cons. split; [|split; [tauto|]].
      * rewrite HD, Hd. destruct o; reflexivity.
      * intros _. right. discriminate.
Qed.

Lemma last_parsed_failures (os : list Settled) (acc : option T) :
  Forall (λ o, is_Some (failure json o)) os → last_parsed json os acc = acc.
Proof.
  induction 1 as [|o os [e He] _ IH]; [reflexivity|].
  unfold failure in He. destruct o as [r|e']; cbn [last_parsed]; [|exact IH].
  destruct (json (body r)); [exact IH|discriminate].
Qed.

(** C2, amended: after any sequence of URL changes and request outcomes,
    [error] is populated exactly when some request failed, since it is
    never cleared, and [data] is the parsed body of the last request that
    succeeded (empty when none did, or when that body is [null]), since a
    failure leaves it in place.  When [loading] is false a request has
    completed.  Only [data] can be populated when all completed requests
    succeeded, only [error] when all failed. *)
Theorem useFetch_data_error_populated
  (es : list Event) (w : World T) (r : Result T) :
  run json es init = Some w →
  snapshot w = Some r →
  r_data r = last_parsed json (outcomes es) None
  ∧ (is_Some (r_error r) ↔ Exists (λ o, is_Some (failure json o)) (outcomes es))
  ∧ (r_loading r = false → outcomes es ≠ [])
  ∧ (Forall (λ o, failure json o = None) (outcomes es) → r_error r = None)
  ∧ (Forall (λ o, is_Some (failure json o)) (outcomes es) →
     r_data r = None ∧ (r_loading r = false → is_Some (r_error r))).
Proof.
  intros Hrun Hsnap.
  destruct (useFetch_run_fields es init w (λ _, eq_refl) Hrun) as (HD & HE & HL).
  rewrite Hsnap in HD, HE, HL. cbn in HD, HE, HL.
  assert (HE' : is_Some (r_error r) ↔ Exists (λ o, is_Some (failure json o)) (outcomes es)).
  { rewrite HE. split; [intros [[? [=]]|?]; assumption|auto]. }
  assert (HL' : r_loading r = false → outcomes es ≠ []).
  { intros Hl. rewrite Hl in HL. now destruct (HL eq_refl) as [[=]|Hne]. }
  split; [exact HD|]. split; [exact HE'|]. split; [exact HL'|]. split.
  - intros Hall. destruct (r_error r) as [e|] eqn:He; [|reflexivity].
    exfalso. assert (Hx : is_Some (Some e)) by eauto.
    apply HE' in Hx. apply Exists_exists in Hx as (o & Hin & [e' He']).
    rewrite Forall_forall in Hall. rewrite (Hall o Hin) in He'. discriminate.
  - intros Hall. split.
    + rewrite HD. now apply last_parsed_failures.
    + intros Hl. apply HE'. specialize (HL' Hl).
      destruct Hall as [|o os Ho _]; [congruence|]. now apply Exists_cons_hd.
Qed.

End UseFetchFacts.

(** ** JSON on scalar values *)

Section JSONFacts.
Import JSON.

Lemma decimal_first_character (n : Z) :
  decimal n ≠ ""%string
  ∧ String.eqb (decimal n) "null" = false
  ∧ String.eqb (decimal n) "true" = false
  ∧ String.eqb (decimal n) "false" = false.
Proof.
  unfold decimal. destruct n as [|p|p]; cbn.
  - repeat split; discriminate.
  - destruct (Pos.to_uint p); cbn; repeat split; discriminate.
  - repeat split; discriminate.
Qed.

Lemma parse_number_decimal (n : Z) : parse_number (decimal n) = Some n.
Proof.
  unfold parse_number, decimal. rewrite NilZero.isi.
  - rewrite DecimalZ.of_to. now rewrite String.eqb_refl.
  - destruct n as [|p|p]; cbn; try discriminate.
    intros [= Hnil]. exact (DecimalPos.Unsigned.to_uint_nonnil p Hnil).
  - destruct n as [|p|p]; cbn; try discriminate.
    intros [= Hnil]. exact (DecimalPos.Unsigned.to_uint_nonnil p Hnil).
Qed.

(** Every scalar but [undefined] and [NaN] is written to a text that reads
    back as the scalar; these two are not. *)
Lemma scalar_representable (v : JSValue) :
  UseLocalStorage.representable stringify parse v ↔ v ≠ JSUndefined ∧ v ≠ JSNaN.
Proof.
  unfold UseLocalStorage.representable. split.
  - intros (text & Hs & _ & Hp). split; intros ->; cbn in Hs.
    + discriminate.
    + injection Hs as <-. discriminate.
  - intros [Hu Hn]. destruct v as [| |[|]|n|]; try congruence.
    + exists "null"%string. repeat split. discriminate.
    + exists "true"%string. repeat split. discriminate.
    + exists "false"%string. repeat split. discriminate.
    + exists (decimal n). destruct (decimal_first_character n) as (Hne & H1 & H2 & H3).
      split; [reflexivity|]. split; [exact Hne|].
      unfold parse. now rewrite H1, H2, H3, parse_number_decimal.
Qed.

End JSONFacts.

(** ** useLocalStorage *)

Section UseLocalStorageFacts.
Import JS UseLocalStorage.
Context {T : Type}.
Variable JSON_stringify : T → Error + option string.
Variable JSON_parse : string → Error + T.

(** When the [try] block of [setValue] completes normally, the store is
    accessible and holds the serialized value under the key. *)
Lemma setValue_try_normal (key : string) (x : T) (w w' : World T) :
  setValue_try JSON_stringify key x w = (Normal tt, w') →
  ∃ text, JSON_stringify x = inr text
          ∧ blocked (storage w') = false
          ∧ getItem key (storage w') = Some (ToString text).
Proof.
  unfold setValue_try, bind, setStoredValue, localStorage, modify, lift; cbn.
  destruct (blocked (storage w)) eqn:Hb; [discriminate|].
  destruct (JSON_stringify x) as [e|text]; cbn; [discriminate|].
  unfold setItem. destruct (_ <? _)%nat; cbn; [discriminate|].
  intros [= <-]; cbn. exists text. split; [reflexivity|]. split; [exact Hb|].
  unfold getItem; cbn. apply lookup_insert_eq.
Qed.

(** The initializer never throws: what goes wrong is logged. *)
Lemma initializer_normal (key : string) (initialValue : T) (w : World T) :
  ∃ v w', initializer JSON_parse key initialValue w = (Normal v, w').
Proof.
  unfold initializer, tryCatch, bind, localStorage, console_error, modify, ret, lift.
  destruct (blocked (storage w)); cbn; [eauto|].
  destruct (truthy _) as [item|]; cbn; [|eauto].
  destruct (JSON_parse item); cbn; eauto.
Qed.

(** C5, amended: for every key and every value whose serialized form reads
    back as the value, a successful [setValue] followed by the construction
    of a fresh binding with the same key gives that value as the initial
    value of the fresh binding, whatever its [initialValue], and logs
    nothing. *)
Theorem useLocalStorage_round_trip
  (key : string) (x initialValue : T) (w w' : World T) :
  representable JSON_stringify JSON_parse x →
  setValue_try JSON_stringify key x w = (Normal tt, w') →
  setValue JSON_stringify key x w = (Normal tt, w')
  ∧ ∃ w'', useLocalStorage JSON_parse key initialValue (fresh w') = (Normal x, w'')
           ∧ console w'' = console w'
           ∧ storage w'' = storage w'.
Proof.
  intros (text & Hs & Hne & Hp) Htry. split.
  { unfold setValue, tryCatch. now rewrite Htry. }
  destruct (setValue_try_normal key x w w' Htry) as (text' & Hs' & Hb & Hget).
  rewrite Hs in Hs'. injection Hs' as <-. cbn in Hget.
  unfold useLocalStorage, fresh; cbn [fiber].
  unfold initializer, tryCatch, bind, localStorage; cbn [storage].
  rewrite Hb, Hget.
  assert (Ht : truthy (Some text) = Some text) by (destruct text; [congruence|reflexivity]).
  rewrite Ht, Hp. cbn. eauto.
Qed.

End UseLocalStorageFacts.

(** C5 fails on values that JSON does not carry.  [setValue(undefined)]
    succeeds and stores the text [undefined], which does not parse: the
    fresh binding falls back to its [initialValue].  [setValue(NaN)]
    succeeds and stores [null]: the fresh binding starts from [null]. *)
Lemma useLocalStorage_round_trip_fails_on_undefined :
  (fst (UseLocalStorage.setValue_try JSON.stringify "theme" JSON.JSUndefined
          Scenario.binding) = JS.Normal tt
   ∧ fst (UseLocalStorage.useLocalStorage JSON.parse "theme" (JSON.JSBoolean false)
            (UseLocalStorage.fresh (Scenario.stored JSON.JSUndefined)))
     = JS.Normal (JSON.JSBoolean false))
  ∧ (fst (UseLocalStorage.setValue_try JSON.stringify "theme" JSON.JSNaN
            Scenario.binding) = JS.Normal tt
     ∧ fst (UseLocalStorage.useLocalStorage JSON.parse "theme" (JSON.JSBoolean false)
              (UseLocalStorage.fresh (Scenario.stored JSON.JSNaN)))
       = JS.Normal JSON.JSNull).
Proof. vm_compute. repeat split. Qed.

(** ** useDebounce *)

Section UseDebounceFacts.
Import UseDebounce.
Context {T : Type} `{EqDecision T}.
Implicit Types (w : World T) (v : T) (d t : Z).

(** C10: the first render returns the input value itself, at the time of
    the first render and before any timer has run; the value the caller
    observes from then on is that value until a timer fires. *)
Theorem useDebounce_initial_value (value : T) (delay t0 : Z) :
  let first := useDebounce value delay (init t0) in
  fst first = value
  ∧ now (snd first) = t0
  ∧ published (snd first) = []
  ∧ current (snd first) = Some value.
Proof. cbn. auto. Qed.

Lemma filter_other_handle (tm : Timer T) (id : nat) :
  handle tm = id → filter (λ tm', handle tm' ≠ id) [tm] = [].
Proof.
  intros Hid. rewrite filter_cons, filter_nil.
  destruct (decide (handle tm ≠ id)); [contradiction|reflexivity].
Qed.

Lemma armed_render w value delay t :
  armed w → armed (snd (useDebounce value delay (advance t w))).
Proof.
  unfold armed, useDebounce, advance; cbn [fiber timers].
  destruct (fiber w) as [h|]; cbn.
  - intros Harmed. case_bool_decide; cbn; [exact Harmed|].
    right. destruct Harmed as [->|(dl & v & ->)].
    + rewrite filter_nil. eauto.
    + rewrite filter_other_handle by reflexivity. eauto.
  - intros ->. eauto.
Qed.

Lemma armed_fire w w' id t :
  armed w → fire id (advance t w) = Some w' → timers w' = [].
Proof.
  unfold armed, fire, advance; cbn [fiber timers now].
  intros Harmed.
  assert (Hcases : timers w = [] ∨ ∃ tm, timers w = [tm]).
  { destruct (fiber w); [destruct Harmed as [?|(dl & v & ?)]|]; eauto. }
  destruct Hcases as [->|[tm ->]]; cbn; [discriminate|].
  destruct (Nat.eqb_spec (handle tm) id) as [Hid|]; [|discriminate].
  destruct (deadline tm <=? t); [|discriminate].
  intros [= <-]; cbn. now apply filter_other_handle.
Qed.

Lemma armed_step w w' (e : Event T) :
  armed w → step w e = Some w' → armed w'.
Proof.
  intros Harmed. destruct e as [t [value delay|id]]; cbn [step].
  - destruct (t <? now w); [discriminate|]. intros [= <-].
    now apply armed_render.
  - destruct (t <? now w); [discriminate|]. intros Hfire.
    unfold armed. rewrite (armed_fire w w' id t Harmed Hfire).
    destruct (fiber w'); auto.
Qed.

Lemma armed_run (es : list (Event T)) w w' :
  armed w → run es w = Some w' → armed w'.
Proof.
  revert w; induction es as [|e es IH]; intros w Harmed; cbn [run].
  - now intros [= <-].
  - destruct (step w e) as [w1|] eqn:Hstep; [|discriminate].
    apply IH. exact (armed_step w w1 e Harmed Hstep).
Qed.













End UseDebounceFacts.

(** * Concrete runs *)

(** ** useFetch over JSON scalars *)

(** C2 fails: a request that succeeds followed, after a URL change, by one
    that is rejected leaves [loading] false with both [data] and [error]
    populated; a single request answered by the body [null] leaves
    [loading] false with neither. *)
Lemma useFetch_success_then_failure_populates_both :
  (∃ w, UseFetch.run JSON.parse_nullable Scenario.success_then_failure UseFetch.init
        = Some w
        ∧ UseFetch.snapshot w
          = Some (UseFetch.mkResult (Some (JSON.JSBoolean true)) false
                                    (Some Scenario.TypeError)))
  ∧ (∃ w, UseFetch.run JSON.parse_nullable Scenario.null_body UseFetch.init = Some w
          ∧ UseFetch.snapshot w = Some (UseFetch.mkResult None false None)).
Proof. split; eexists; (split; vm_compute; reflexivity). Qed.

(** C3 fails: after a rejected request, the change to another URL leaves
    the error in place while the new request is in flight, and it is still
    there when that request has succeeded. *)
Lemma useFetch_error_survives_successful_refetch :
  (∃ w, UseFetch.run JSON.parse_nullable Scenario.failure_then_change UseFetch.init
        = Some w
        ∧ UseFetch.snapshot w
          = Some (UseFetch.mkResult None true (Some Scenario.TypeError)))
  ∧ (∃ w, UseFetch.run JSON.parse_nullable
            (Scenario.failure_then_change ++ [UseFetch.Settle 1 (Scenario.ok "42")])
            UseFetch.init = Some w
          ∧ UseFetch.snapshot w
            = Some (UseFetch.mkResult (Some (JSON.JSNumber 42)) false
                                      (Some Scenario.TypeError))).
Proof. split; eexists; (split; vm_compute; reflexivity). Qed.

(** The amended C2 on the run above: [data] is the body of the first
    request, and the failure of the second is in [error]. *)
Lemma useFetch_data_error_populated_witness :
  Some (JSON.JSBoolean true)
  = UseFetch.last_parsed JSON.parse_nullable
      (UseFetch.outcomes Scenario.success_then_failure) None
  ∧ UseFetch.outcomes Scenario.success_then_failure ≠ [].
Proof.
  pose proof (useFetch_data_error_populated JSON.parse_nullable
                Scenario.success_then_failure
                (Scenario.fetched Scenario.success_then_failure)
                (UseFetch.mkResult (Some (JSON.JSBoolean true)) false
                                   (Some Scenario.TypeError))
                eq_refl eq_refl) as (Hdata & _ & Hloading & _).
  split; [exact Hdata|exact (Hloading eq_refl)].
Defined.

(** The amended C3 on a URL change after a failure. *)
Lemma useFetch_url_change_keeps_error_witness :
  UseFetch.snapshot (snd (UseFetch.useFetch Scenario.teams
                            (Scenario.fetched [UseFetch.Render Scenario.users;
                                               UseFetch.Settle 0 (UseFetch.Rejected Scenario.TypeError)])))
  = Some (UseFetch.mkResult None true (Some Scenario.TypeError)).
Proof.
  refine (proj1 (useFetch_url_change_keeps_error JSON.parse_nullable
                   (Scenario.fetched [UseFetch.Render Scenario.users;
                                      UseFetch.Settle 0 (UseFetch.Rejected Scenario.TypeError)])
                   (UseFetch.mkHooks
                      (mountState None)
                      (dispatchSetState (Value false)
                         (dispatchSetState (Value true) (mountState true)))
                      (dispatchSetState (Value (Some Scenario.TypeError)) (mountState None))
                      Scenario.users)
                   Scenario.teams eq_refl _)).
  vm_compute. discriminate.
Defined.

(** C6 on a rejected request. *)
Lemma useFetch_failure_sets_error_witness :
  fst (UseFetch.fetchData_resume JSON.parse_nullable
         (UseFetch.Rejected Scenario.TypeError) Scenario.requested_hooks)
  = JS.Normal tt
  ∧ ∃ w', UseFetch.settle JSON.parse_nullable 0 (UseFetch.Rejected Scenario.TypeError)
            Scenario.requested = Some w'
          ∧ UseFetch.snapshot w'
            = Some (UseFetch.mkResult None false (Some Scenario.TypeError)).
Proof.
  pose proof (useFetch_failure_sets_error JSON.parse_nullable Scenario.requested
                Scenario.requested_hooks 0 (UseFetch.Rejected Scenario.TypeError)
                Scenario.TypeError eq_refl eq_refl eq_refl) as (Hnormal & Hsettle & _).
  split; [exact Hnormal|exact Hsettle].
Defined.

(** C9 on a 404 response with a JSON body. *)
Lemma useFetch_ignores_status_witness :
  ∃ w', UseFetch.settle JSON.parse_nullable 0 (Scenario.not_found "false")
          Scenario.requested = Some w'
        ∧ UseFetch.snapshot w'
          = Some (UseFetch.mkResult (Some (JSON.JSBoolean false)) false None).
Proof.
  exact (proj1 (useFetch_ignores_status JSON.parse_nullable Scenario.requested
                  Scenario.requested_hooks 0 404 "false" (Some (JSON.JSBoolean false))
                  eq_refl eq_refl eq_refl)).
Defined.

(** The amended C5 on [setValue(42)]. *)
Lemma useLocalStorage_round_trip_witness :
  ∃ w'', UseLocalStorage.useLocalStorage JSON.parse "theme" (JSON.JSBoolean false)
           (UseLocalStorage.fresh (Scenario.stored (JSON.JSNumber 42)))
         = (JS.Normal (JSON.JSNumber 42), w'')
         ∧ UseLocalStorage.console w'' = []
         ∧ UseLocalStorage.storage w''
           = UseLocalStorage.storage (Scenario.stored (JSON.JSNumber 42)).
Proof.
  refine (proj2 (useLocalStorage_round_trip JSON.stringify JSON.parse "theme"
                   (JSON.JSNumber 42) (JSON.JSBoolean false) Scenario.binding
                   (Scenario.stored (JSON.JSNumber 42)) _ _)).
  - exists "42"%string. repeat split. discriminate.
  - vm_compute. reflexivity.
Defined.



(** * Further properties of the hooks *)

(** ** usePrevious *)

(** X1: over any sequence of cycles, the first cycle returns the value it
    was given and every later cycle returns the value of the cycle just
    before it, whether or not the value changed in between. *)
Theorem usePrevious_returns_value_of_previous_cycle
  {T : Type} `{EqDecision T} (v z : T) (values : list T) :
  UsePrevious.observe (v :: values ++ [z]) None = Some v :: (Some <$> v :: values).
Proof.
  rewrite usePrevious_observe. f_equal. f_equal.
  change (v :: values ++ [z]) with ((v :: values) ++ [z]).
  apply removelast_last.
Qed.

(** ** useClickOutside *)

Section UseClickOutsideFacts.
Import UseClickOutside.

Lemma contains_descendant (node rest : Node) : contains node (node ++ rest) = true.
Proof.
  induction node as [|i node IH]; [reflexivity|].
  cbn. now rewrite Nat.eqb_refl, IH.
Qed.

Lemma removeEventListener_only (handler : Void) :
  removeEventListener handler [handler] = [].
Proof. cbn. now rewrite Nat.eqb_refl. Qed.

Lemma click_listeners_cells (target : Node) (ls : list Void) (w : World) :
  let w' := fold_left (λ w handler, handleClickOutside handler target w) ls w in
  fiber w' = fiber w ∧ listeners w' = listeners w.
Proof.
  revert w; induction ls as [|l ls IH]; intros w; [split; reflexivity|].
  cbn [fold_left]. destruct (IH (handleClickOutside l target w)) as [Hf Hl].
  cbn zeta. rewrite Hf, Hl.
  unfold handleClickOutside. destruct (fiber w ≫= ref_current) as [node|]; [|auto].
  destruct (negb (contains node target)); auto.
Qed.

Lemma subscribed_step (w : World) (e : Event) : subscribed w → subscribed (step w e).
Proof.
  unfold subscribed. destruct e as [handler|node|target|]; cbn [step].
  - unfold useClickOutside. destruct (fiber w) as [h|] eqn:Hf; cbn.
    + intros Hl. case_bool_decide; cbn.
      * now rewrite Hf.
      * now rewrite Hl, removeEventListener_only.
    + now intros ->.
  - unfold attach; cbn. destruct (fiber w); cbn; auto.
  - destruct (click_listeners_cells target (listeners w) w) as [Hf Hl].
    unfold click. now rewrite Hf, Hl.
  - unfold unmount. destruct (fiber w) as [h|] eqn:Hf; cbn.
    + intros ->. apply removeEventListener_only.
    + now rewrite Hf.
Qed.

Lemma subscribed_run (es : list Event) (w : World) : subscribed w → subscribed (run es w).
Proof.
  revert w; induction es as [|e es IH]; intros w Hs; [exact Hs|].
  apply IH, subscribed_step, Hs.
Qed.

(** X2: however the hook got where it is, a click calls the handler of the
    latest render exactly once when an element is attached and the target
    is outside it, and calls nothing when the target is inside, when no
    element is attached, or when the hook is not mounted. *)
Theorem useClickOutside_calls_on_outside_click (es : list Event) (target : Node) :
  let w := run es init in
  calls (click target w)
  = match fiber w with
    | Some h =>
        match ref_current h with
        | Some node => if contains node target then calls w
                       else calls w ++ [deps h]
        | None => calls w
        end
    | None => calls w
    end.
Proof.
  intros w. pose proof (subscribed_run es init eq_refl) as Hs.
  fold w in Hs. unfold subscribed in Hs. unfold click.
  destruct (fiber w) as [h|] eqn:Hf; rewrite Hs; [|reflexivity].
  cbn [fold_left]. unfold handleClickOutside. rewrite Hf. cbn [mbind option_bind].
  destruct (ref_current h) as [node|]; [|reflexivity].
  destruct (contains node target); reflexivity.
Qed.

(** X3: a click on the attached element itself or anywhere below it never
    calls the handler. *)
Theorem useClickOutside_inside_click_is_silent
  (es : list Event) (h : Hooks) (node rest : Node) :
  fiber (run es init) = Some h →
  ref_current h = Some node →
  calls (click (node ++ rest) (run es init)) = calls (run es init).
Proof.
  intros Hf Href. pose proof (subscribed_run es init eq_refl) as Hs.
  unfold subscribed in Hs. rewrite Hf in Hs. unfold click. rewrite Hs.
  cbn [fold_left]. unfold handleClickOutside. rewrite Hf. cbn [mbind option_bind].
  now rewrite Href, contains_descendant.
Qed.

(** X4: unmounting removes the listener from [document]: none is left, and
    no later click calls the handler. *)
Theorem useClickOutside_unmount_unsubscribes (es : list Event) (target : Node) :
  let w := unmount (run es init) in
  listeners w = [] ∧ calls (click target w) = calls (run es init).
Proof.
  intros w. pose proof (subscribed_run es init eq_refl) as Hs.
  unfold subscribed in Hs. subst w. unfold unmount, click.
  destruct (fiber (run es init)) as [h|]; rewrite Hs; cbn [listeners].
  - rewrite removeEventListener_only. auto.
  - auto.
Qed.

End UseClickOutsideFacts.

(** ** useMediaQuery *)

Section UseMediaQueryFacts.
Import UseMediaQuery.

Lemma removeEventListener_query (query : QueryString) :
  removeEventListener query [query] = [].
Proof. cbn. now rewrite String.eqb_refl. Qed.

Lemma in_sync_render (query : QueryString) (w : World) :
  in_sync w → in_sync (snd (useMediaQuery query w)).
Proof.
  unfold in_sync, useMediaQuery. destruct (fiber w) as [h|]; cbn.
  - intros [Hl Hm]. case_bool_decide as Hq; cbn.
    + subst query. auto.
    + rewrite Hl, removeEventListener_query. auto.
  - intros ->. auto.
Qed.

Lemma in_sync_change (m : QueryString → bool) (w : World) :
  in_sync w → in_sync (change m w).
Proof.
  unfold in_sync, change. destruct (fiber w) as [h|]; cbn; [|auto].
  intros [Hl Hm]. rewrite Hl, filter_cons, filter_nil.
  destruct (decide (media w (deps h) ≠ m (deps h))) as [Hne|Heq]; cbn.
  - split; [reflexivity|]. now rewrite fold_left_app.
  - split; [reflexivity|]. rewrite Hm.
    destruct (media w (deps h)), (m (deps h)); try reflexivity;
      exfalso; apply Heq; discriminate.
Qed.

Lemma in_sync_run (es : list Event) (w : World) : in_sync w → in_sync (run es w).
Proof.
  revert w; induction es as [|[query|m] es IH]; intros w Hs; [exact Hs|..];
    apply IH; [now apply in_sync_render|now apply in_sync_change].
Qed.

Lemma run_mounted (es : list Event) (w : World) :
  is_Some (fiber w) → is_Some (fiber (run es w)).
Proof.
  revert w; induction es as [|[query|m] es IH]; intros w Hw; [exact Hw|..]; apply IH.
  - unfold step, useMediaQuery. destruct (areHookInputsEqual _ _); cbn; eauto.
  - destruct Hw as [h Hh]. unfold step, change; cbn. rewrite Hh; cbn. eauto.
Qed.

(** X5: once mounted, whatever renders, query changes and environment
    changes follow, the hook has exactly one listener, on its current
    query, and a render with that query returns what the environment
    currently answers for it. *)
Theorem useMediaQuery_stays_in_sync
  (m : QueryString → bool) (query : QueryString) (es : list Event) :
  let w := run (Render query :: es) (init m) in
  ∃ h, fiber w = Some h
       ∧ listeners w = [deps h]
       ∧ fst (useMediaQuery (deps h) w) = media w (deps h).
Proof.
  intros w. subst w.
  change (run (Render query :: es) (init m))
    with (run es (snd (useMediaQuery query (init m)))).
  set (w1 := snd (useMediaQuery query (init m))).
  assert (Hs : in_sync (run es w1)) by (apply in_sync_run, in_sync_render; reflexivity).
  destruct (run_mounted es w1) as [h Hh]; [cbn; eauto|].
  unfold in_sync in Hs. rewrite Hh in Hs. destruct Hs as [Hl Hm].
  exists h. split; [exact Hh|]. split; [exact Hl|].
  unfold useMediaQuery. rewrite Hh. cbn.
  rewrite bool_decide_eq_true_2 by reflexivity. exact Hm.
Qed.

(** X6: in the cycle in which the query changes, the render still returns
    the answer for the previous query; the answer for the new query is
    returned from the next render on. *)
Theorem useMediaQuery_query_change_lags_one_render
  (m : QueryString → bool) (query query' : QueryString) (es : list Event) :
  let w := run (Render query :: es) (init m) in
  ∃ h, fiber w = Some h
       ∧ fst (useMediaQuery query' w) = media w (deps h)
       ∧ fst (useMediaQuery query' (snd (useMediaQuery query' w))) = media w query'.
Proof.
  intros w. subst w.
  change (run (Render query :: es) (init m))
    with (run es (snd (useMediaQuery query (init m)))).
  set (w1 := snd (useMediaQuery query (init m))).
  assert (Hs : in_sync (run es w1)) by (apply in_sync_run, in_sync_render; reflexivity).
  destruct (run_mounted es w1) as [h Hh]; [cbn; eauto|].
  clearbody w1. generalize dependent (run es w1). clear w1. intros w Hs Hh.
  pose proof (in_sync_render query' _ Hs) as Hs'.
  unfold in_sync in Hs. rewrite Hh in Hs. destruct Hs as [Hl Hm].
  exists h. split; [exact Hh|]. split.
  - unfold useMediaQuery. rewrite Hh. cbn. case_bool_decide; exact Hm.
  - set (w2 := snd (useMediaQuery query' w)) in *.
    assert (Hf2 : ∃ h2, fiber w2 = Some h2 ∧ deps h2 = query' ∧ media w2 = media w).
    { subst w2. unfold useMediaQuery. rewrite Hh. cbn.
      case_bool_decide; cbn; eauto. }
    destruct Hf2 as (h2 & Hh2 & Hd2 & Hmedia).
    unfold in_sync in Hs'. rewrite Hh2 in Hs'. destruct Hs' as [_ Hm2].
    unfold useMediaQuery. rewrite Hh2. cbn.
    rewrite Hd2. rewrite bool_decide_eq_true_2 by reflexivity. cbn.
    rewrite Hm2, Hd2, Hmedia. reflexivity.
Qed.

(** X7: unmounting removes the listener: the hook leaves none behind. *)
Theorem useMediaQuery_unmount_unsubscribes
  (m : QueryString → bool) (es : list Event) :
  listeners (unmount (run es (init m))) = [].
Proof.
  assert (Hs : in_sync (run es (init m))) by (apply in_sync_run; reflexivity).
  unfold in_sync in Hs. unfold unmount.
  destruct (fiber (run es (init m))) as [h|]; cbn.
  - destruct Hs as [-> _]. apply removeEventListener_query.
  - exact Hs.
Qed.

End UseMediaQueryFacts.

(** ** useDebounce *)

Section UseDebounceFurther.
Import UseDebounce.
Context {T : Type} `{EqDecision T}.
Implicit Types (w : World T) (v : T) (d t : Z).

Lemma armed_latest_render w v d t :
  armed_latest w → armed_latest (snd (useDebounce v d (advance t w))).
Proof.
  unfold armed_latest, useDebounce, advance; cbn [fiber timers].
  destruct (fiber w) as [h|]; cbn.
  - intros Harmed. case_bool_decide; cbn; [exact Harmed|].
    right. destruct Harmed as [->|(dl & ->)].
    + rewrite filter_nil. eauto.
    + rewrite filter_other_handle by reflexivity. eauto.
  - intros ->. eauto.
Qed.

(** The only timer that can fire is the one of the last effect. *)
Lemma armed_latest_fire w w' id t :
  armed_latest w →
  fire id (advance t w) = Some w' →
  ∃ h, fiber w = Some h ∧ id = handler h
       ∧ timers w' = []
       ∧ published w' = published w ++ [(t, fst (deps h))]
       ∧ fiber w' = Some (mkHooks (dispatchSetState (Value (fst (deps h)))
                                                    (debouncedValue h))
                                  (deps h) (handler h)).
Proof.
  unfold armed_latest, fire, advance; cbn [fiber timers now].
  destruct (fiber w) as [h|]; [|intros ->; discriminate].
  intros [->|(dl & ->)]; [discriminate|]. cbn [find handle].
  destruct (Nat.eqb_spec (handler h) id) as [Hid|]; [|discriminate].
  cbn [deadline captured]. destruct (dl <=? t); [|discriminate].
  intros [= <-]. exists h. unfold clearTimeout; cbn [timers published fiber].
  rewrite filter_other_handle by exact Hid. auto.
Qed.

Lemma armed_latest_step w w' (e : Event T) :
  armed_latest w → step w e = Some w' → armed_latest w'.
Proof.
  intros Harmed. destruct e as [t [value delay|id]]; cbn [step];
    destruct (t <? now w); try discriminate.
  - intros [= <-]. now apply armed_latest_render.
  - intros Hfire.
    destruct (armed_latest_fire w w' id t Harmed Hfire) as (h & _ & _ & Ht & _ & Hf).
    unfold armed_latest. rewrite Hf, Ht. auto.
Qed.

Lemma armed_latest_run (es : list (Event T)) w w' :
  armed_latest w → run es w = Some w' → armed_latest w'.
Proof.
  revert w; induction es as [|e es IH]; intros w Harmed; cbn [run].
  - now intros [= <-].
  - destruct (step w e) as [w1|] eqn:Hstep; [|discriminate].
    apply IH. exact (armed_latest_step w w1 e Harmed Hstep).
Qed.

(** X8: whenever a timer fires, it is the timer of the latest update: what
    is published then is the value most recently passed to the hook, the
    caller observes that value from then on, and no timer is left armed.
    A value that was superseded is never published. *)
Theorem useDebounce_fire_publishes_latest_value
  (t0 t : Z) (pre : list (Event T)) (w w' : World T) (id : nat) :
  run pre (init t0) = Some w →
  step w (t, Fire id) = Some w' →
  ∃ h, fiber w = Some h
       ∧ id = handler h
       ∧ published w' = published w ++ [(t, fst (deps h))]
       ∧ current w' = Some (fst (deps h))
       ∧ timers w' = [].
Proof.
  intros Hpre Hstep.
  assert (Harmed : armed_latest w).
  { apply (armed_latest_run pre (init t0) w); [reflexivity|exact Hpre]. }
  cbn [step] in Hstep. destruct (t <? now w); [discriminate|].
  destruct (armed_latest_fire w w' id t Harmed Hstep) as (h & Hf & Hid & Ht & Hp & Hf').
  exists h. repeat split; try assumption.
  unfold current. rewrite Hf'. cbn [fmap option_fmap option_map debouncedValue].
  now autorewrite with cells.
Qed.

Lemma render_observation (w : World T) (v : T) (d t : Z) :
  fst (useDebounce v d (advance t w)) = default v (current w)
  ∧ current (snd (useDebounce v d (advance t w))) = Some (default v (current w))
  ∧ published (snd (useDebounce v d (advance t w))) = published w.
Proof.
  unfold useDebounce, advance, current; cbn [fiber].
  destruct (fiber w) as [h|]; cbn.
  - case_bool_decide; cbn; auto.
  - auto.
Qed.

(** X9: a render never changes the value the caller observes, whatever the
    delay (zero and negative delays included): it returns the value
    observed so far (the input value on mount), and publishes nothing. *)
Theorem useDebounce_render_publishes_nothing (w : World T) (v : T) (d t : Z) :
  let cycle := useDebounce v d (advance t w) in
  fst cycle = default v (current w)
  ∧ current (snd cycle) = Some (default v (current w))
  ∧ published (snd cycle) = published w.
Proof. exact (render_observation w v d t). Qed.


(** X11: the value the caller observes is the value given on mount until
    a timer fires, and the last value published from then on: it changes
    through timer callbacks only. *)
Theorem useDebounce_observes_last_published
  (t0 t1 : Z) (v0 : T) (d0 : Z) (es : list (Event T)) (w : World T) :
  run ((t1, Render v0 d0) :: es) (init t0) = Some w →
  current w = Some (default v0 (snd <$> last (published w))).
Proof.
  cbn [run step]. destruct (t1 <? now (init t0)); [discriminate|].
  set (w1 := snd (useDebounce v0 d0 (advance t1 (init t0)))).
  assert (H1 : current w1 = Some (default v0 (snd <$> last (published w1)))
               ∧ armed_latest w1).
  { split; [reflexivity|]. apply armed_latest_render. reflexivity. }
  clearbody w1. revert w1 H1.
  induction es as [|[t [v d|id]] es IH]; intros w1 [Hc Harmed]; cbn [run].
  - now intros [= <-].
  - destruct (step w1 (t, Render v d)) as [w2|] eqn:Hstep; [|discriminate].
    apply IH. split; [|exact (armed_latest_step w1 w2 _ Harmed Hstep)].
    cbn [step] in Hstep. destruct (t <? now w1); [discriminate|].
    injection Hstep as <-.
    destruct (render_observation w1 v d t) as (_ & -> & ->).
    rewrite Hc. reflexivity.
  - destruct (step w1 (t, Fire id)) as [w2|] eqn:Hstep; [|discriminate].
    apply IH. split; [|exact (armed_latest_step w1 w2 _ Harmed Hstep)].
    cbn [step] in Hstep. destruct (t <? now w1); [discriminate|].
    destruct (armed_latest_fire w1 w2 id t Harmed Hstep) as (h & _ & _ & _ & Hp & Hf).
    unfold current. rewrite Hf, Hp, last_snoc.
    cbn [fmap option_fmap option_map debouncedValue default snd].
    now autorewrite with cells.
Qed.


Lemma no_timer_no_fire w id t : timers w = [] → step w (t, Fire id) = None.
Proof.
  intros Ht. cbn [step]. destruct (t <? now w); [reflexivity|].
  unfold fire, advance; cbn [timers]. now rewrite Ht.
Qed.


(** X13: unmounting clears the armed timer: no timer is left, so nothing
    can be published for a hook that is gone. *)
Theorem useDebounce_unmount_cancels
  (t0 : Z) (pre : list (Event T)) (w : World T) :
  run pre (init t0) = Some w →
  timers (unmount w) = []
  ∧ published (unmount w) = published w
  ∧ ∀ id t, step (unmount w) (t, Fire id) = None.
Proof.
  intros Hpre.
  assert (Harmed : armed w).
  { apply (armed_run pre (init t0) w); [reflexivity|exact Hpre]. }
  assert (Ht : timers (unmount w) = []).
  { unfold armed in Harmed. unfold unmount, clearTimeout.
    destruct (fiber w) as [h|]; cbn [timers]; [|exact Harmed].
    destruct Harmed as [->|(dl & v & ->)].
    - now rewrite filter_nil.
    - now rewrite filter_other_handle. }
  split; [exact Ht|]. split.
  - unfold unmount. destruct (fiber w); reflexivity.
  - intros id t. now apply no_timer_no_fire.
Qed.

End UseDebounceFurther.

(** ** useFetch *)

Section UseFetchFurther.
Import JS UseFetch.
Context {T : Type}.
Variable json : string → Error + option T.

Lemma fetchData_resume_cells (o : Settled) (h : Hooks T) :
  deps (exec (fetchData_resume json o) h) = deps h
  ∧ r_loading (observe (exec (fetchData_resume json o) h)) = false.
Proof.
  unfold exec. destruct (failure json o) as [e|] eqn:Hfail.
  - rewrite (fetchData_resume_failure json o e h Hfail). cbn [snd deps].
    split; [reflexivity|]. unfold observe; cbn [r_loading loading].
    now autorewrite with cells.
  - destruct (fetchData_resume_success json o h Hfail) as (r & v & _ & _ & ->).
    cbn [snd deps]. split; [reflexivity|]. unfold observe; cbn [r_loading loading].
    now autorewrite with cells.
Qed.

Lemma useFetch_cells (url : FetchUrl) (w : World T) :
  let w' := snd (useFetch url w) in
  (deps <$> fiber w') = Some url
  ∧ nextRequest w'
    = (nextRequest w + if areHookInputsEqual url (deps <$> fiber w) then 0 else 1)%nat
  ∧ ∃ issued, inflight w' = inflight w ++ issued.
Proof.
  unfold useFetch. destruct (fiber w) as [h|]; cbn.
  - case_bool_decide as Heq; cbn.
    + subst url. split; [reflexivity|]. split; [lia|]. exists []. now rewrite app_nil_r.
    + split; [reflexivity|]. split; [lia|]. eauto.
  - split; [reflexivity|]. split; [lia|]. eauto.
Qed.

Lemma settle_cells (id : nat) (o : Settled) (w w' : World T) :
  settle json id o w = Some w' →
  (deps <$> fiber w') = (deps <$> fiber w)
  ∧ nextRequest w' = nextRequest w
  ∧ inflight w' = filter (λ r, fst r ≠ id) (inflight w).
Proof.
  unfold settle. destruct (pending id w); [|discriminate]. intros [= <-]. cbn.
  split; [|auto]. destruct (fiber w) as [h|]; cbn; [|reflexivity].
  f_equal. apply fetchData_resume_cells.
Qed.

Lemma url_changes_run (es : list Event) (w w' : World T) :
  run json es w = Some w' →
  nextRequest w' = (nextRequest w + url_changes es (deps <$> fiber w))%nat.
Proof.
  revert w; induction es as [|[url|id o] es IH]; intros w; cbn [run step url_changes].
  - intros [= <-]. lia.
  - intros Hrun. destruct (useFetch_cells url w) as (Hdeps & Hnext & _).
    rewrite (IH _ Hrun), Hdeps, Hnext. lia.
  - destruct (settle json id o w) as [w1|] eqn:Hsettle; [|discriminate].
    intros Hrun. destruct (settle_cells id o w w1 Hsettle) as (Hdeps & Hnext & _).
    rewrite (IH _ Hrun), Hdeps, Hnext. reflexivity.
Qed.

(** X14: the hook issues exactly one request for every render whose URL
    differs from the URL of the render before, the first render included,
    and none otherwise: no request on a re-render with the same URL, and a
    new one each time a URL comes back. *)
Theorem useFetch_one_request_per_url_change (es : list Event) (w : World T) :
  run json es init = Some w →
  nextRequest w = url_changes es None.
Proof. intros Hrun. now rewrite (url_changes_run es init w Hrun). Qed.

Lemma pending_filter_other (id id' : nat) (rs : list (nat * FetchUrl)) :
  id' ≠ id →
  existsb (λ r, Nat.eqb (fst r) id) (filter (λ r, fst r ≠ id') rs)
  = existsb (λ r, Nat.eqb (fst r) id) rs.
Proof.
  intros Hne. induction rs as [|r rs IH]; [reflexivity|].
  rewrite filter_cons. destruct (decide (fst r ≠ id')) as [_|Heq]; cbn; [now rewrite IH|].
  rewrite IH. destruct (Nat.eqb_spec (fst r) id) as [Hid|]; [|reflexivity].
  exfalso. apply Heq. congruence.
Qed.

Lemma pending_step (id : nat) (e : Event) (w w' : World T) :
  leaves_in_flight id e →
  step json w e = Some w' →
  pending id w = true → pending id w' = true.
Proof.
  destruct e as [url|id' o]; cbn [leaves_in_flight step].
  - intros _ [= <-]. destruct (useFetch_cells url w) as (_ & _ & issued & Hin).
    unfold pending. rewrite Hin, existsb_app. intros ->. reflexivity.
  - intros Hne Hsettle. destruct (settle_cells id' o w w' Hsettle) as (_ & _ & Hin).
    unfold pending. now rewrite Hin, pending_filter_other.
Qed.

(** X15: a request is never cancelled: whatever URL changes and other
    requests' outcomes follow, a request in flight stays in flight until
    it settles itself. *)
Theorem useFetch_never_cancels (id : nat) (es : list Event) (w w' : World T) :
  pending id w = true →
  Forall (leaves_in_flight id) es →
  run json es w = Some w' →
  pending id w' = true.
Proof.
  intros Hp Hes; revert w Hp; induction Hes as [|e es He _ IH]; intros w Hp; cbn [run].
  - now intros [= <-].
  - destruct (step json w e) as [w1|] eqn:Hstep; [|discriminate].
    apply IH. exact (pending_step id e w w1 He Hstep Hp).
Qed.

(** Two requests in flight settle one after the other. *)
Lemma settle_two (w : World T) (h : Hooks T) (ida idb : nat) (oa ob : Settled) :
  fiber w = Some h →
  pending ida w = true →
  pending idb w = true →
  ida ≠ idb →
  ∃ w' r, run json [Settle ida oa; Settle idb ob] w = Some w'
          ∧ snapshot w' = Some r
          ∧ r_data r = last_parsed json [oa; ob] (r_data (observe h)).
Proof.
  intros Hf Hpa Hpb Hab. cbn [run step].
  assert (Hsa : ∃ wa, settle json ida oa w = Some wa).
  { unfold settle. rewrite Hpa. eauto. }
  destruct Hsa as [wa Hsa]. rewrite Hsa.
  assert (Hpb' : pending idb wa = true).
  { exact (pending_step idb (Settle ida oa) w wa Hab Hsa Hpb). }
  assert (Hsb : ∃ wb, settle json idb ob wa = Some wb).
  { unfold settle. rewrite Hpb'. eauto. }
  destruct Hsb as [wb Hsb]. rewrite Hsb.
  assert (Hfa : is_Some (fiber wa)).
  { unfold settle in Hsa. rewrite Hpa in Hsa. injection Hsa as <-. cbn.
    rewrite Hf. cbn. eauto. }
  assert (Hfb : is_Some (fiber wb)).
  { unfold settle in Hsb. rewrite Hpb' in Hsb. injection Hsb as <-. cbn.
    destruct Hfa as [ha ->]. cbn. eauto. }
  destruct (useFetch_settle_fields json w wa ida oa) as [Hda _];
    [rewrite Hf; discriminate|exact Hsa|].
  destruct (useFetch_settle_fields json wa wb idb ob) as [Hdb _];
    [destruct Hfa as [ha ->]; discriminate|exact Hsb|].
  destruct Hfb as [hb Hhb].
  exists wb, (observe hb). split; [reflexivity|].
  assert (Hsnap : snapshot wb = Some (observe hb)) by (unfold snapshot; now rewrite Hhb).
  split; [exact Hsnap|].
  rewrite Hsnap in Hdb. cbn [mbind option_bind] in Hdb. rewrite Hdb, Hda.
  unfold snapshot. rewrite Hf. cbn [fmap option_fmap option_map mbind option_bind].
  destruct oa; reflexivity.
Qed.

(** X16: with two requests in flight, once both have settled [data] is the
    parsed body of the last of them to settle successfully, whichever was
    issued first.  When both succeed, the one that settles last decides
    [data]; when one of them fails, the body of the other is in [data],
    in either order; when both fail, [data] is as it was. *)
Theorem useFetch_last_settled_wins
  (w : World T) (h : Hooks T) (id1 id2 : nat) (o1 o2 : Settled) :
  fiber w = Some h →
  pending id1 w = true →
  pending id2 w = true →
  id1 ≠ id2 →
  (∃ w' r, run json [Settle id1 o1; Settle id2 o2] w = Some w'
           ∧ snapshot w' = Some r
           ∧ r_data r = last_parsed json [o1; o2] (r_data (observe h)))
  ∧ (∃ w' r, run json [Settle id2 o2; Settle id1 o1] w = Some w'
             ∧ snapshot w' = Some r
             ∧ r_data r = last_parsed json [o2; o1] (r_data (observe h)))
  ∧ (∀ r1 r2 v1 v2 before,
        o1 = Fulfilled r1 → o2 = Fulfilled r2 →
        json (body r1) = inr v1 → json (body r2) = inr v2 →
        last_parsed json [o1; o2] before = v2
        ∧ last_parsed json [o2; o1] before = v1)
  ∧ (∀ r1 v1 before,
        o1 = Fulfilled r1 → json (body r1) = inr v1 → is_Some (failure json o2) →
        last_parsed json [o1; o2] before = v1
        ∧ last_parsed json [o2; o1] before = v1)
  ∧ (∀ before,
        is_Some (failure json o1) → is_Some (failure json o2) →
        last_parsed json [o1; o2] before = before
        ∧ last_parsed json [o2; o1] before = before).
Proof.
  intros Hf Hp1 Hp2 Hne. split; [|split; [|split; [|split]]].
  - now apply settle_two.
  - apply settle_two; auto.
  - intros r1 r2 v1 v2 before -> -> Hj1 Hj2. cbn [last_parsed].
    now rewrite Hj1, Hj2.
  - intros r1 v1 before -> Hj1 [e He]. unfold failure in He.
    destruct o2 as [r2|e2]; cbn [last_parsed]; rewrite Hj1; [|auto].
    destruct (json (body r2)); [auto|discriminate].
  - intros before Hf1 Hf2.
    split; apply last_parsed_failures; repeat constructor; assumption.
Qed.

(** X17: [loading] becomes false as soon as any request settles, also
    while another request is still in flight. *)
Theorem useFetch_loading_false_while_in_flight
  (w : World T) (h : Hooks T) (id id' : nat) (o : Settled) :
  fiber w = Some h →
  pending id w = true →
  pending id' w = true →
  id ≠ id' →
  ∃ w' r, settle json id o w = Some w'
          ∧ snapshot w' = Some r
          ∧ r_loading r = false
          ∧ pending id' w' = true.
Proof.
  intros Hf Hp Hp' Hne.
  assert (Hsettle : ∃ w', settle json id o w = Some w').
  { unfold settle. rewrite Hp. eauto. }
  destruct Hsettle as [w' Hsettle]. exists w'.
  exists (observe (exec (fetchData_resume json o) h)).
  split; [exact Hsettle|]. split; [|split].
  - unfold settle in Hsettle. rewrite Hp in Hsettle. injection Hsettle as <-.
    unfold snapshot; cbn [fiber]. now rewrite Hf.
  - apply fetchData_resume_cells.
  - apply (pending_step id' (Settle id o) w w'); [cbn; congruence|exact Hsettle|exact Hp'].
Qed.

Lemma useFetch_run_mounted (es : list Event) (w w' : World T) :
  (fiber w = None → inflight w = []) →
  run json es w = Some w' →
  (fiber w' = None → inflight w' = []).
Proof.
  revert w; induction es as [|e es IH]; intros w Hwf; cbn [run].
  - now intros [= <-].
  - destruct (step json w e) as [w1|] eqn:Hstep; [|discriminate].
    apply IH. exact (useFetch_step_mounted json w w1 e Hwf Hstep).
Qed.

(** X18: [error] is sticky: once a request has failed, [error] stays
    populated through every later URL change and every later outcome,
    successes included. *)
Theorem useFetch_error_is_sticky
  (es es' : list Event) (w w' : World T) (r : Result T) :
  run json es init = Some w →
  snapshot w = Some r →
  is_Some (r_error r) →
  run json es' w = Some w' →
  ∃ r', snapshot w' = Some r' ∧ is_Some (r_error r').
Proof.
  intros Hrun Hsnap Herr Hrun'.
  pose proof (useFetch_run_mounted es init w (λ _, eq_refl) Hrun) as Hwf.
  destruct (useFetch_run_fields json es' w w' Hwf Hrun') as (_ & HE & _).
  rewrite Hsnap in HE. cbn [mbind option_bind] in HE.
  assert (Hx : is_Some (snapshot w' ≫= r_error)) by (apply HE; auto).
  destruct (snapshot w') as [r'|]; cbn in Hx; [eauto|].
  destruct Hx as [? [=]].
Qed.

End UseFetchFurther.

(** ** useLocalStorage *)

Section UseLocalStorageFurther.
Import JS UseLocalStorage.
Context {T : Type}.
Variable JSON_stringify : T → Error + option string.
Variable JSON_parse : string → Error + T.

Lemma initializer_cases (key : string) (initialValue : T) (w : World T) :
  initializer JSON_parse key initialValue w
  = (Normal (fst (initial_read JSON_parse key initialValue (storage w))),
     mkWorld (fiber w) (storage w)
             (console w ++ snd (initial_read JSON_parse key initialValue (storage w)))).
Proof.
  unfold initializer, initial_read, tryCatch, bind, localStorage, console_error,
    modify, ret, lift, throw.
  destruct w as [f st c]; cbn [storage fiber console].
  destruct (blocked st); cbn; [reflexivity|].
  destruct (truthy (getItem key st)) as [item|]; cbn; [|now rewrite app_nil_r].
  destruct (JSON_parse item); cbn; [reflexivity|now rewrite app_nil_r].
Qed.

Lemma useLocalStorage_mount_fresh (key : string) (initialValue : T) (w : World T) :
  fst (useLocalStorage JSON_parse key initialValue (fresh w))
  = Normal (fst (initial_read JSON_parse key initialValue (storage w))).
Proof.
  unfold useLocalStorage, fresh; cbn [fiber]. now rewrite initializer_cases.
Qed.

(** X19: constructing a binding never throws and never writes the store;
    its initial value is the stored item when there is one and it parses,
    and [initialValue] otherwise: when the key is missing, when the item is
    the empty string, when it does not parse (the error is logged), and
    when access to the store is denied (the error is logged). *)
Theorem useLocalStorage_mount_reads_or_falls_back
  (key : string) (initialValue : T) (w : World T) :
  fiber w = None →
  ∃ v logged,
    useLocalStorage JSON_parse key initialValue w
    = (Normal v,
       mkWorld (Some (mkHooks (mountState v))) (storage w) (console w ++ logged))
    ∧ (blocked (storage w) = true → v = initialValue ∧ logged = [SecurityError])
    ∧ (blocked (storage w) = false →
       match getItem key (storage w) with
       | None | Some EmptyString => v = initialValue ∧ logged = []
       | Some item =>
           match JSON_parse item with
           | inr x => v = x ∧ logged = []
           | inl e => v = initialValue ∧ logged = [e]
           end
       end).
Proof.
  intros Hf.
  exists (fst (initial_read JSON_parse key initialValue (storage w))),
         (snd (initial_read JSON_parse key initialValue (storage w))).
  split; [|split].
  - unfold useLocalStorage. rewrite Hf, initializer_cases. reflexivity.
  - unfold initial_read. intros ->. auto.
  - unfold initial_read. intros ->.
    destruct (getItem key (storage w)) as [[|c item]|]; cbn [truthy]; auto.
    destruct (JSON_parse (String c item)); auto.
Qed.

(** The store after [setValue]: as it was, or with the one item written. *)
Lemma setValue_cases (key : string) (x : T) (w : World T) :
  ∃ w', setValue JSON_stringify key x w = (Normal tt, w')
        ∧ fiber w'
          = ((λ h, mkHooks (dispatchSetState (Value x) (storedValue h))) <$> fiber w)
        ∧ ((∃ e, storage w' = storage w ∧ console w' = console w ++ [e])
           ∨ (∃ text, JSON_stringify x = inr text
                      ∧ console w' = console w
                      ∧ blocked (storage w) = false
                      ∧ storage w'
                        = mkStorage (<[key := ToString text]> (items (storage w)))
                                    (quota (storage w)) false)).
Proof.
  unfold setValue, setValue_try, tryCatch, bind, setStoredValue, localStorage,
    console_error, modify, lift, throw, ret.
  destruct w as [f st c]; cbn [storage fiber console].
  destruct (blocked st) eqn:Hb; cbn; [eauto 8|].
  destruct (JSON_stringify x) as [e|text]; cbn; [eauto 8|].
  unfold setItem. destruct (_ <? _)%nat; cbn; [eauto 8|].
  rewrite Hb. eexists; split; [reflexivity|]. split; [reflexivity|].
  right. exists text. auto.
Qed.


Lemma initial_read_frame (key : string) (initialValue : T) (st st' : Storage) :
  blocked st' = blocked st →
  getItem key st' = getItem key st →
  initial_read JSON_parse key initialValue st'
  = initial_read JSON_parse key initialValue st.
Proof. unfold initial_read. now intros -> ->. Qed.

(** X21: [setValue] on one key does not disturb the others: a binding
    constructed afresh for another key starts from the same value as it
    would have before the call. *)
Theorem useLocalStorage_other_keys_untouched
  (key key' : string) (x initialValue : T) (w : World T) :
  key' ≠ key →
  fst (useLocalStorage JSON_parse key' initialValue
         (fresh (snd (setValue JSON_stringify key x w))))
  = fst (useLocalStorage JSON_parse key' initialValue (fresh w)).
Proof.
  intros Hne. destruct (setValue_cases key x w) as (w' & Hset & _ & Hcases).
  rewrite Hset. cbn [snd].
  rewrite !useLocalStorage_mount_fresh.
  f_equal. f_equal. destruct Hcases as [(e & -> & _)|(text & _ & _ & Hb & ->)];
    [reflexivity|].
  apply initial_read_frame; [cbn; now rewrite Hb|].
  unfold getItem; cbn. now apply lookup_insert_ne.
Qed.

(** X22: bindings do not observe each other: after another binding has
    successfully written the key, a mounted binding still returns its own
    value on the next render, while a binding constructed afresh reads
    what was written. *)
Theorem useLocalStorage_no_cross_instance_sync
  (key : string) (y initialValue : T) (mine : Hooks T) (w w' : World T) :
  representable JSON_stringify JSON_parse y →
  setValue_try JSON_stringify key y w = (Normal tt, w') →
  fst (useLocalStorage JSON_parse key initialValue
         (mkWorld (Some mine) (storage w') (console w')))
  = Normal (pendingState (storedValue mine))
  ∧ fst (useLocalStorage JSON_parse key initialValue (fresh w')) = Normal y.
Proof.
  intros (text & Hs & Hne & Hp) Htry. split; [reflexivity|].
  destruct (setValue_try_normal JSON_stringify key y w w' Htry) as (text' & Hs' & Hb & Hget).
  rewrite Hs in Hs'. injection Hs' as <-. cbn in Hget.
  rewrite useLocalStorage_mount_fresh. unfold initial_read.
  rewrite Hb, Hget.
  assert (Ht : truthy (Some text) = Some text) by (destruct text; [congruence|reflexivity]).
  now rewrite Ht, Hp.
Qed.

End UseLocalStorageFurther.

(** * Further concrete runs *)

(** X3 on the dropdown: a click on a child of the attached element. *)
Lemma useClickOutside_inside_click_is_silent_witness :
  UseClickOutside.calls
    (UseClickOutside.click ([0; 1] ++ [2])%nat
       (UseClickOutside.run Scenario.dropdown UseClickOutside.init))
  = UseClickOutside.calls (UseClickOutside.run Scenario.dropdown UseClickOutside.init).
Proof.
  exact (useClickOutside_inside_click_is_silent Scenario.dropdown
           (UseClickOutside.mkHooks (Some [0; 1]%nat) 7%nat) [0; 1]%nat [2]%nat
           eq_refl eq_refl).
Defined.

(** X8 on the keystrokes: the timer that fires is the one of [rea]. *)
Lemma useDebounce_fire_publishes_latest_value_witness :
  ∃ h, UseDebounce.fiber Scenario.awaiting = Some h
       ∧ 3%nat = UseDebounce.handler h
       ∧ UseDebounce.published Scenario.typed
         = UseDebounce.published Scenario.awaiting ++ [(1550, fst (UseDebounce.deps h))]
       ∧ UseDebounce.current Scenario.typed = Some (fst (UseDebounce.deps h))
       ∧ UseDebounce.timers Scenario.typed = [].
Proof.
  refine (useDebounce_fire_publishes_latest_value 0 1550 Scenario.keyed
            Scenario.awaiting Scenario.typed 3 _ _); vm_compute; reflexivity.
Defined.


(** X11 on the keystrokes. *)
Lemma useDebounce_observes_last_published_witness :
  UseDebounce.current Scenario.typed
  = Some (default ""%string (snd <$> last (UseDebounce.published Scenario.typed))).
Proof.
  refine (useDebounce_observes_last_published 0 0 ""%string 300
            ((1000, UseDebounce.Render "r"%string 300) :: Scenario.keystrokes)
            Scenario.typed _).
  vm_compute. reflexivity.
Defined.


(** X13 on the keystrokes: unmounting before the timer fires. *)
Lemma useDebounce_unmount_cancels_witness :
  UseDebounce.timers (UseDebounce.unmount Scenario.awaiting) = []
  ∧ UseDebounce.published (UseDebounce.unmount Scenario.awaiting)
    = UseDebounce.published Scenario.awaiting
  ∧ ∀ id t, UseDebounce.step (UseDebounce.unmount Scenario.awaiting)
              (t, UseDebounce.Fire id) = None.
Proof.
  refine (useDebounce_unmount_cancels 0 Scenario.keyed Scenario.awaiting _).
  vm_compute. reflexivity.
Defined.

(** X14: two URL changes, two requests. *)
Lemma useFetch_one_request_per_url_change_witness :
  UseFetch.nextRequest (Scenario.fetched Scenario.success_then_failure)
  = UseFetch.url_changes Scenario.success_then_failure None.
Proof.
  exact (useFetch_one_request_per_url_change JSON.parse_nullable
           Scenario.success_then_failure
           (Scenario.fetched Scenario.success_then_failure) eq_refl).
Defined.

(** X15: the request for [users] survives the change to [teams]. *)
Lemma useFetch_never_cancels_witness :
  UseFetch.pending 0 Scenario.superseded = true.
Proof.
  refine (useFetch_never_cancels JSON.parse_nullable 0
            [UseFetch.Render Scenario.teams] Scenario.requested Scenario.superseded
            eq_refl _ eq_refl).
  repeat constructor.
Defined.

(** X16 on the two requests in flight, the second of which is rejected:
    the body of the first is in [data] whichever settles last. *)
Lemma useFetch_last_settled_wins_witness :
  (∃ w' r, UseFetch.run JSON.parse_nullable
             [UseFetch.Settle 0 (Scenario.ok "1");
              UseFetch.Settle 1 (UseFetch.Rejected Scenario.TypeError)]
             Scenario.superseded = Some w'
           ∧ UseFetch.snapshot w' = Some r
           ∧ UseFetch.r_data r = Some (JSON.JSNumber 1))
  ∧ (∃ w' r, UseFetch.run JSON.parse_nullable
               [UseFetch.Settle 1 (UseFetch.Rejected Scenario.TypeError);
                UseFetch.Settle 0 (Scenario.ok "1")]
               Scenario.superseded = Some w'
             ∧ UseFetch.snapshot w' = Some r
             ∧ UseFetch.r_data r = Some (JSON.JSNumber 1)).
Proof.
  destruct (useFetch_last_settled_wins JSON.parse_nullable Scenario.superseded
              Scenario.superseded_hooks 0 1 (Scenario.ok "1")
              (UseFetch.Rejected Scenario.TypeError) eq_refl eq_refl eq_refl)
    as (H12 & H21 & _); [discriminate|].
  split; assumption.
Defined.

(** X17 on the two requests in flight. *)
Lemma useFetch_loading_false_while_in_flight_witness :
  ∃ w' r, UseFetch.settle JSON.parse_nullable 0 (Scenario.ok "true")
            Scenario.superseded = Some w'
          ∧ UseFetch.snapshot w' = Some r
          ∧ UseFetch.r_loading r = false
          ∧ UseFetch.pending 1 w' = true.
Proof.
  refine (useFetch_loading_false_while_in_flight JSON.parse_nullable
            Scenario.superseded Scenario.superseded_hooks 0 1 (Scenario.ok "true")
            eq_refl eq_refl eq_refl _).
  discriminate.
Defined.

(** X18: the error of the first request is still there after the second
    request has succeeded. *)
Lemma useFetch_error_is_sticky_witness :
  ∃ r', UseFetch.snapshot
          (Scenario.fetched (Scenario.failure_then_change
                             ++ [UseFetch.Settle 1 (Scenario.ok "42")]))
        = Some r'
        ∧ is_Some (UseFetch.r_error r').
Proof.
  refine (useFetch_error_is_sticky JSON.parse_nullable
            [UseFetch.Render Scenario.users;
             UseFetch.Settle 0 (UseFetch.Rejected Scenario.TypeError)]
            [UseFetch.Render Scenario.teams; UseFetch.Settle 1 (Scenario.ok "42")]
            (Scenario.fetched [UseFetch.Render Scenario.users;
                               UseFetch.Settle 0 (UseFetch.Rejected Scenario.TypeError)])
            (Scenario.fetched (Scenario.failure_then_change
                               ++ [UseFetch.Settle 1 (Scenario.ok "42")]))
            (UseFetch.mkResult None false (Some Scenario.TypeError))
            eq_refl eq_refl _ eq_refl).
  eexists; reflexivity.
Defined.

(** X19 on a store that holds [42] under the key. *)
Lemma useLocalStorage_mount_reads_or_falls_back_witness :
  ∃ v logged,
    UseLocalStorage.useLocalStorage JSON.parse "theme" (JSON.JSBoolean false)
      (UseLocalStorage.fresh (Scenario.stored (JSON.JSNumber 42)))
    = (JS.Normal v,
       UseLocalStorage.mkWorld
         (Some (UseLocalStorage.mkHooks (mountState v)))
         (UseLocalStorage.storage (Scenario.stored (JSON.JSNumber 42)))
         (UseLocalStorage.console (Scenario.stored (JSON.JSNumber 42)) ++ logged)).
Proof.
  destruct (useLocalStorage_mount_reads_or_falls_back JSON.parse "theme"
              (JSON.JSBoolean false)
              (UseLocalStorage.fresh (Scenario.stored (JSON.JSNumber 42))) eq_refl)
    as (v & logged & Hmount & _).
  exists v, logged. exact Hmount.
Defined.


(** X21: writing [theme] does not change what a binding of [lang] reads. *)
Lemma useLocalStorage_other_keys_untouched_witness :
  fst (UseLocalStorage.useLocalStorage JSON.parse "lang" JSON.JSNull
         (UseLocalStorage.fresh
            (snd (UseLocalStorage.setValue JSON.stringify "theme" (JSON.JSNumber 42)
                    Scenario.binding))))
  = fst (UseLocalStorage.useLocalStorage JSON.parse "lang" JSON.JSNull
           (UseLocalStorage.fresh Scenario.binding)).
Proof.
  refine (useLocalStorage_other_keys_untouched JSON.stringify JSON.parse
            "theme" "lang" (JSON.JSNumber 42) JSON.JSNull Scenario.binding _).
  discriminate.
Defined.

(** X22: a binding mounted with [true] keeps it after [42] was written. *)
Lemma useLocalStorage_no_cross_instance_sync_witness :
  fst (UseLocalStorage.useLocalStorage JSON.parse "theme" (JSON.JSBoolean false)
         (UseLocalStorage.mkWorld
            (Some (UseLocalStorage.mkHooks (mountState (JSON.JSBoolean true))))
            (UseLocalStorage.storage (Scenario.stored (JSON.JSNumber 42)))
            (UseLocalStorage.console (Scenario.stored (JSON.JSNumber 42)))))
  = JS.Normal (JSON.JSBoolean true)
  ∧ fst (UseLocalStorage.useLocalStorage JSON.parse "theme" (JSON.JSBoolean false)
           (UseLocalStorage.fresh (Scenario.stored (JSON.JSNumber 42))))
    = JS.Normal (JSON.JSNumber 42).
Proof.
  refine (useLocalStorage_no_cross_instance_sync JSON.stringify JSON.parse "theme"
            (JSON.JSNumber 42) (JSON.JSBoolean false)
            (UseLocalStorage.mkHooks (mountState (JSON.JSBoolean true)))
            Scenario.binding (Scenario.stored (JSON.JSNumber 42)) _ _).
  - exists "42"%string. repeat split. discriminate.
  - vm_compute. reflexivity.
Defined.
